(** * typescript-partial-lib-dom: the build script and the browser helpers

    A shallow embedding of
    - the build script (compiler run, license insertion, output tree), and
    - [src/utils.ts] and [src/EnvironmentError.ts]
    together with the properties the specification states about them. *)

From Stdlib Require Import List String Ascii ZArith NArith Bool Arith Lia.
Import ListNotations.
Local Open Scope string_scope.
Local Open Scope list_scope.

Set Implicit Arguments.
Set Warnings "-register-all".

(** * The file system the build script works on *)

Module Fs.

(** Two directory trees are touched by the walk: the staging directory
    ([tmpDir], under the platform's temp root) and the output directory
    ([outDir], resolved from the configuration).  They are kept as two
    separate roots: neither lies inside the other. *)
Inductive root := Staging | Output.

Definition path : Type := root * list string.

(** [path.join(p, name)] for a directory entry name. *)
Definition join (p : path) (name : string) : path := (fst p, snd p ++ [name]).

Inductive node :=
| File (content : string)
| Dir (entries : list (string * node)).

Definition entries_t : Type := list (string * node).

Fixpoint assoc (x : string) (es : entries_t) : option node :=
  match es with
  | [] => None
  | (y, c) :: es' => if String.eqb y x then Some c else assoc x es'
  end.

(** Replaces the entry named [x], or appends it when there is none. *)
Fixpoint put_entry (x : string) (v : node) (es : entries_t) : entries_t :=
  match es with
  | [] => [(x, v)]
  | (y, c) :: es' =>
      if String.eqb y x then (x, v) :: es' else (y, c) :: put_entry x v es'
  end.

Definition remove_entry (x : string) (es : entries_t) : entries_t :=
  filter (fun e => negb (String.eqb (fst e) x)) es.

Fixpoint get (p : list string) (n : node) : option node :=
  match p with
  | [] => Some n
  | x :: p' =>
      match n with
      | Dir es => match assoc x es with Some c => get p' c | None => None end
      | File _ => None
      end
  end.

(** [graft x q v n]: the tree [n] where the node at [x :: q] is replaced by
    [v] (created when missing, deleted when [v] is [None]); [None] when the
    parent of [x :: q] is not a directory of [n]. *)
Fixpoint graft (x : string) (q : list string) (v : option node) (n : node)
  : option node :=
  match n with
  | File _ => None
  | Dir es =>
      match q with
      | [] =>
          Some (Dir (match v with
                     | Some c => put_entry x c es
                     | None => remove_entry x es
                     end))
      | y :: q' =>
          match assoc x es with
          | Some c =>
              match graft y q' v c with
              | Some c' => Some (Dir (put_entry x c' es))
              | None => None
              end
          | None => None
          end
      end
  end.

Inductive errno := ENOENT | ENOTDIR | EEXIST | EISDIR.

(** Why a path cannot be reached: a component is missing, or a file stands
    where a directory is needed. *)
Fixpoint unreachable (p : list string) (n : node) : errno :=
  match p with
  | [] => ENOENT
  | x :: p' =>
      match n with
      | File _ => ENOTDIR
      | Dir es => match assoc x es with
                  | Some c => unreachable p' c
                  | None => ENOENT
                  end
      end
  end.

(** [mkdir -p]: every missing directory of the path is created. *)
Fixpoint mkdirp (p : list string) (n : option node) : errno + node :=
  match p with
  | [] =>
      match n with
      | None => inr (Dir [])
      | Some (Dir es) => inr (Dir es)
      | Some (File _) => inl EEXIST
      end
  | x :: p' =>
      match n with
      | None =>
          match mkdirp p' None with
          | inr c => inr (Dir [(x, c)])
          | inl e => inl e
          end
      | Some (Dir es) =>
          match mkdirp p' (assoc x es) with
          | inr c => inr (Dir (put_entry x c es))
          | inl e => inl e
          end
      | Some (File _) => inl ENOTDIR
      end
  end.

(** ** Errors, suspended calls and the state of a run *)

Inductive exn :=
| SystemError (code : errno) (target : path)  (* thrown by [fs] *)
| MissingFile (name : string)                 (* ENOENT on a file of the project root *)
| SyntaxError                                 (* thrown by [json5.parse] *)
| TypeError (msg : string)
| Error (msg : string)                        (* [new Error(msg)] *)
| RangeError.                                 (* call stack exhausted *)

(** An entry of [readdirSync(dir, { withFileTypes: true })]. *)
Record dirent := { name : string; isDirectory : bool }.

(** A call of [processFiles] suspended at [await processFile(...)]: the file
    being copied, the entries the loop has not reached yet and the loop's
    local variable. *)
Record frame := {
  fr_tmpDir : path;
  fr_outDir : path;
  fr_license : string;
  fr_name : string;
  fr_rest : list dirent;
  fr_outDirCreated : bool
}.

(** Whose promise a suspended call will settle: the walk the script started
    (it carries the [catch] handler) or a recursive call, whose promise is
    dropped by its caller. *)
Inductive owner := Root | Nested.

Record state := {
  staging : option node;
  output : option node;
  console : list (list exn);          (* arguments of each [console.error] *)
  pending : list (owner * frame);     (* calls awaiting their file copy *)
  unhandled : list exn                (* rejections of dropped promises *)
}.

Definition store (r : root) (s : state) : option node :=
  match r with Staging => staging s | Output => output s end.

Definition set_store (r : root) (v : option node) (s : state) : state :=
  match r with
  | Staging => {| staging := v; output := output s; console := console s;
                  pending := pending s; unhandled := unhandled s |}
  | Output => {| staging := staging s; output := v; console := console s;
                 pending := pending s; unhandled := unhandled s |}
  end.

Definition lookup (p : path) (s : state) : option node :=
  match store (fst p) s with
  | Some n => get (snd p) n
  | None => None
  end.

(** The node at [p] replaced by [v]; [None] when [p]'s parent is not a
    directory. *)
Definition replace (p : path) (v : option node) (s : state) : option state :=
  match snd p with
  | [] => Some (set_store (fst p) v s)
  | x :: q =>
      match store (fst p) s with
      | Some n =>
          match graft x q v n with
          | Some n' => Some (set_store (fst p) (Some n') s)
          | None => None
          end
      | None => None
      end
  end.

Definition why_not (p : path) (s : state) : exn :=
  SystemError (match store (fst p) s with
               | Some n => unreachable (snd p) n
               | None => ENOENT
               end) p.

(** ** Synchronous code: state and exceptions *)

Definition M (A : Type) : Type := state -> (exn + A) * state.

Definition ret {A} (a : A) : M A := fun s => (inr a, s).
Definition throw {A} (e : exn) : M A := fun s => (inl e, s).
Definition bind {A B} (m : M A) (k : A -> M B) : M B :=
  fun s => match m s with
           | (inr a, s') => k a s'
           | (inl e, s') => (inl e, s')
           end.

Declare Scope js_scope.
Delimit Scope js_scope with js.
Notation "x <- m ;; k" := (bind m (fun x => k))
  (at level 61, m at next level, right associativity) : js_scope.
Notation "m ;; k" := (bind m (fun _ => k))
  (at level 61, right associativity) : js_scope.
Local Open Scope js_scope.

(** [for (const x of l) body(x)] *)
Fixpoint for_of {A} (l : list A) (body : A -> M unit) : M unit :=
  match l with
  | [] => ret tt
  | x :: l' => body x ;; for_of l' body
  end.

(** ** The [fs] calls the script makes *)

Definition readdirSync_withFileTypes (p : path) : M (list dirent) :=
  fun s => match lookup p s with
           | Some (Dir es) =>
               (inr (map (fun e => {| name := fst e;
                                      isDirectory := match snd e with
                                                     | Dir _ => true
                                                     | File _ => false
                                                     end |}) es), s)
           | Some (File _) => (inl (SystemError ENOTDIR p), s)
           | None => (inl (why_not p s), s)
           end.

Definition readdirSync (p : path) : M (list string) :=
  es <- readdirSync_withFileTypes p ;; ret (map name es).

(** [fs.mkdirSync(p, { recursive: true })] *)
Definition mkdirSync_recursive (p : path) : M unit :=
  fun s => match mkdirp (snd p) (store (fst p) s) with
           | inr n => (inr tt, set_store (fst p) (Some n) s)
           | inl code => (inl (SystemError code p), s)
           end.

(** [fs.writeFileSync(p, data, 'utf-8')]: the file is created or replaced;
    its directory has to exist. *)
Definition writeFileSync (p : path) (data : string) : M unit :=
  fun s => match lookup p s with
           | Some (Dir _) => (inl (SystemError EISDIR p), s)
           | _ => match replace p (Some (File data)) s with
                  | Some s' => (inr tt, s')
                  | None => (inl (why_not p s), s)
                  end
           end.

(** [fs.rmSync(p, { recursive: true })]: without [force], a missing path is
    an error. *)
Definition rmSync_recursive (p : path) : M unit :=
  fun s => match lookup p s with
           | None => (inl (why_not p s), s)
           | Some _ => match replace p None s with
                       | Some s' => (inr tt, s')
                       | None => (inl (why_not p s), s)
                       end
           end.

(** What a read stream delivers once it has opened its file. *)
Definition read_stream (p : path) (s : state) : exn + string :=
  match lookup p s with
  | Some (File c) => inr c
  | Some (Dir _) => inl (SystemError EISDIR p)
  | None => inl (why_not p s)
  end.

End Fs.

(** * The build script *)

Module Build.
Import Fs.
Local Open Scope js_scope.

Definition LF : string := String (ascii_of_nat 10) EmptyString.
Definition dquote : string := String (ascii_of_nat 34) EmptyString.

Definition ends_with (suffix s : string) : bool :=
  let n := String.length s in
  let k := String.length suffix in
  (k <=? n)%nat && String.eqb (substring (n - k) k s) suffix.

(** [/\.(js|d\.ts)$/.test(name)] *)
Definition qualifying (name : string) : bool :=
  ends_with ".js" name || ends_with ".d.ts" name.

(** [const tmpDir = join(os.tmpdir(), 'typescript-partial-lib-dom')] *)
Definition tmpDir : path := (Staging, []).

Definition ignoreError (fn : M unit) : M unit :=
  fun s => match fn s with
           | (inr _, s') => (inr tt, s')
           | (inl _, s') => (inr tt, s')
           end.

(** [remove(...path)] *)
Definition remove (p : path) (more : list string) : M unit :=
  ignoreError (rmSync_recursive (fold_left join more p)).

Definition empty (p : path) : M unit :=
  entries <- readdirSync p ;;
  for_of entries (fun entry => remove (join p entry) []).

(** ** [processFile]

    The call itself only builds the two streams and returns a promise.
    When the code that made the call has run to its end the streams open
    their files: [open_write] is the write stream's part, which creates
    its file or truncates it, and does nothing when the file cannot be
    opened.  The copy happens later still, from the event loop, and
    [processFile] below is that copy.  The read stream was built first; if
    it cannot deliver the file its [error] event, which has no listener,
    comes first and nothing has been written to the opened file.
    Otherwise the write stream flushes the license it was handed and the
    read stream's data is piped through; the write stream's [error] event
    rejects the promise and its [finish] event resolves it.  File
    contents are text as the compiler emits it, which the [utf-8] decoding
    and encoding of the two streams leave as it is. *)
Inductive copied :=
| Finish (s : state)
| WriteStreamError (e : exn) (s : state)
| ReadStreamError (e : exn) (s : state).

(** [fs.createWriteStream(join(outDir, filename), 'utf-8')], once open. *)
Definition open_write (outDir : path) (filename : string) (s : state)
  : state :=
  snd (writeFileSync (join outDir filename) EmptyString s).

Definition processFile (tmpDir outDir : path) (filename license : string)
  (s : state) : copied :=
  match read_stream (join tmpDir filename) s with
  | inl e => ReadStreamError e s
  | inr data =>
      match writeFileSync (join outDir filename) license s with
      | (inl e, s1) => WriteStreamError e s1
      | (inr _, s1) =>
          match writeFileSync (join outDir filename) (license ++ data) s1 with
          | (inl e, s2) => WriteStreamError e s2
          | (inr _, s2) => Finish s2
          end
      end
  end.

(** ** [processFiles]

    An [async] function runs synchronously up to its first [await] and
    hands its caller a promise: already fulfilled, already rejected, or
    still waiting on the suspended call. *)
Inductive promise :=
| Fulfilled
| Rejected (e : exn)
| Awaiting (k : frame).

(** What becomes of the promise of a recursive call: the caller keeps the
    promise object only for its truthiness, so a suspended call goes on
    alone and a rejection has no handler. *)
Definition dropped (p : promise) (s : state) : state :=
  match p with
  | Fulfilled => s
  | Rejected e =>
      {| staging := staging s; output := output s; console := console s;
         pending := pending s; unhandled := unhandled s ++ [e] |}
  | Awaiting k =>
      {| staging := staging s; output := output s; console := console s;
         pending := pending s ++ [(Nested, k)]; unhandled := unhandled s |}
  end.

Section Loop.
(** The recursive call, [processFiles] one stack frame deeper. *)
Variable processFiles_rec : path -> path -> string -> state -> promise * state.

(** The [for] loop of [processFiles] from the entry it has reached, and
    the final [remove(tmpDir)]. *)
Fixpoint loop (tmpDir outDir : path) (license : string)
  (entries : list dirent) (outDirCreated : bool) (s : state)
  : promise * state :=
  match entries with
  | [] => let '(_, s1) := remove tmpDir [] s in (Fulfilled, s1)
  | entry :: rest =>
      if isDirectory entry then
        let '(p, s1) := processFiles_rec (join tmpDir (name entry))
                          (join outDir (name entry)) license s in
        (* a promise object is truthy *)
        loop tmpDir outDir license rest true (dropped p s1)
      else if qualifying (name entry) then
        match ((if negb outDirCreated
                then mkdirSync_recursive tmpDir else ret tt) ;;
               writeFileSync (join outDir (name entry)) license) s with
        | (inl e, s1) => (Rejected e, s1)
        | (inr _, s1) =>
            (Awaiting {| fr_tmpDir := tmpDir; fr_outDir := outDir;
                         fr_license := license; fr_name := name entry;
                         fr_rest := rest;
                         fr_outDirCreated := outDirCreated |}, s1)
        end
      else
        let '(_, s1) := remove tmpDir [name entry] s in
        loop tmpDir outDir license rest outDirCreated s1
  end.

(** The call goes on after [await processFile(...)] has returned. *)
Definition resume (k : frame) (s : state) : promise * state :=
  let '(_, s1) := remove (fr_tmpDir k) [fr_name k] s in
  loop (fr_tmpDir k) (fr_outDir k) (fr_license k) (fr_rest k)
    (fr_outDirCreated k) s1.
End Loop.

(** [stack] is the number of stack frames left; a call that finds none
    fails with a [RangeError]. *)
Fixpoint processFiles (stack : nat) (tmpDir outDir : path) (license : string)
  (s : state) : promise * state :=
  match stack with
  | O => (Rejected RangeError, s)
  | S stack' =>
      match readdirSync_withFileTypes tmpDir s with
      | (inl e, s1) => (Rejected e, s1)
      | (inr entries, s1) =>
          loop (processFiles stack') tmpDir outDir license entries false s1
      end
  end.

(** ** The process: [kill], the event loop, exit statuses *)

Inductive outcome :=
| Exit (status : Z) (s : state)   (* [process.exit(status)] *)
| Uncaught (e : exn) (s : state)  (* uncaught exception: printed by the runtime, exit status 1 *)
| Idle (s : state)                (* nothing left to run: exit status 0 *)
| OutOfTicks.                     (* the bound given to the event loop was too small *)

(** The status the process ends with; of the number handed to
    [process.exit] the operating system keeps the low eight bits. *)
Definition exit_status (o : outcome) : option Z :=
  match o with
  | Exit status _ => Some (Z.land status 255)
  | Uncaught _ _ => Some 1%Z
  | Idle _ => Some 0%Z
  | OutOfTicks => None
  end.

Definition final (o : outcome) : option state :=
  match o with
  | Exit _ s | Uncaught _ s | Idle s => Some s
  | OutOfTicks => None
  end.

Definition console_error (args : list exn) (s : state) : state :=
  {| staging := staging s; output := output s; console := console s ++ [args];
     pending := pending s; unhandled := unhandled s |}.

Definition kill (status : Z) (args : list exn) (s : state) : outcome :=
  let s1 := match args with [] => s | _ :: _ => console_error args s end in
  let '(_, s2) := remove tmpDir [] s1 in
  Exit status s2.

Definition set_pending (l : list (owner * frame)) (s : state) : state :=
  {| staging := staging s; output := output s; console := console s;
     pending := l; unhandled := unhandled s |}.

(** What the runtime is assumed to do: how deep calls may nest, and whether
    a rejection nobody handles ends the process (the default of current
    Node.js) or is only reported. *)
Record runtime := { stack_limit : nat; strict_rejections : bool }.

(** The write streams of the calls awaiting their copy, opened. *)
Definition opened (s : state) : state :=
  fold_left (fun s' c => open_write (fr_outDir (snd c)) (fr_name (snd c)) s')
    (pending s) s.

(** How a run of the event loop ends. *)
Inductive run :=
| Drained (s : state)                 (* no call is pending any more *)
| RootRejected (e : exn) (s : state)  (* the promise of the script's walk is rejected *)
| Crashed (e : exn) (s : state)       (* an exception reached the runtime *)
| Stalled.                            (* the bound on the number of turns was too small *)

Section EventLoop.
Variable rt : runtime.

Section Turn.
(** The event loop from the next turn on. *)
Variable continue : state -> run.

(** A call has run up to its next [await], or to its end.  A rejection of
    the walk the script started goes to its [catch] handler; the promise
    of a recursive call has no handler. *)
Definition settle (o : owner) (p : promise) (s : state) : run :=
  match p, o with
  | Rejected e, Root => RootRejected e s
  | Rejected e, Nested => continue (dropped p s)
  | Awaiting k, _ => continue (set_pending (pending s ++ [(o, k)]) s)
  | Fulfilled, _ => continue s
  end.

(** One turn: a pending copy completes and the call that awaited it goes
    on, with a fresh stack. *)
Definition turn (o : owner) (k : frame) (s : state) : run :=
  match processFile (fr_tmpDir k) (fr_outDir k) (fr_name k) (fr_license k) s with
  | ReadStreamError e s1 => Crashed e s1
  | WriteStreamError e s1 => settle o (Rejected e) s1
  | Finish s1 =>
      let '(p, s2) := resume (processFiles (pred (stack_limit rt))) k s1 in
      settle o p s2
  end.
End Turn.

(** Each time the running code has come to its end the write streams of
    the copies in flight are open, before the runtime looks at the
    rejections left unhandled and before a copy completes.  Copies
    complete in the order in which they were started. *)
Fixpoint event_loop (ticks : nat) (s : state) : run :=
  let s := opened s in
  match strict_rejections rt, unhandled s with
  | true, e :: _ => Crashed e s
  | _, _ =>
      match pending s with
      | [] => Drained s
      | (o, k) :: others =>
          match ticks with
          | O => Stalled
          | S ticks' => turn (event_loop ticks') o k (set_pending others s)
          end
      end
  end.

(** [processFiles(tmpDir, outDir, license)] as the script calls it, and
    everything that runs after the script's last statement. *)
Definition walk (ticks : nat) (outDir : path) (license : string)
  (s : state) : run :=
  let '(p, s1) := processFiles (stack_limit rt) tmpDir outDir license s in
  settle (event_loop ticks) Root p s1.

(** [processFiles(...).catch((error) => kill(1, error))] *)
Definition normalize (ticks : nat) (outDir : path) (license : string)
  (s : state) : outcome :=
  match walk ticks outDir license s with
  | RootRejected e s1 => kill 1 [e] s1
  | Drained s1 => Idle s1
  | Crashed e s1 => Uncaught e s1
  | Stalled => OutOfTicks
  end.
End EventLoop.

(** ** [resolveOutDir] *)

(** A JavaScript number, as far as its truthiness goes. *)
Inductive number :=
| NaN
| Infinity (negative : bool)
| Finite (negative : bool) (mantissa : N) (exponent : Z).

(** What [json5.parse] can return.  The list of an [JObject] holds the own
    properties of the object, looked up by name. *)
Inductive value :=
| JUndefined
| JNull
| JBool (b : bool)
| JNumber (n : number)
| JString (s : string)
| JArray (items : list value)
| JObject (props : list (string * value)).

Definition truthy (v : value) : bool :=
  match v with
  | JUndefined | JNull => false
  | JBool b => b
  | JNumber NaN => false
  | JNumber (Infinity _) => true
  | JNumber (Finite _ m _) => negb (N.eqb m 0)
  | JString s => negb (String.eqb s EmptyString)
  | JArray _ | JObject _ => true
  end.

(** [typeof v === 'object'] *)
Definition typeof_object (v : value) : bool :=
  match v with
  | JNull | JArray _ | JObject _ => true
  | _ => false
  end.

(** [v instanceof Array] *)
Definition instanceof_Array (v : value) : bool :=
  match v with JArray _ => true | _ => false end.

Fixpoint own (k : string) (props : list (string * value)) : value :=
  match props with
  | [] => JUndefined
  | (k', v) :: props' => if String.eqb k' k then v else own k props'
  end.

(** [v?.k] for the three names the script reads ([extends],
    [compilerOptions], [outDir]), none of which a built-in prototype
    defines: an own property of an object, [undefined] otherwise. *)
Definition member (v : value) (k : string) : value :=
  match v with
  | JObject props => own k props
  | _ => JUndefined
  end.

(** [json5.parse(fs.readFileSync(resolve('tsconfig.json'), 'utf-8'))]: the
    file may be missing, json5 may reject its text, or a value comes out. *)
Inductive document :=
| Absent
| Malformed
| Parsed (v : value).

Definition parse_tsconfig (d : document) : exn + value :=
  match d with
  | Absent => inl (MissingFile "tsconfig.json")
  | Malformed => inl SyntaxError
  | Parsed v => inr v
  end.

Definition invalid_tsconfig : string :=
  "Invalid tsconfig.json file in project root".
Definition no_extends : string :=
  "No support for " ++ dquote ++ "extends" ++ dquote
  ++ " option in tsconfig.json yet".
Definition no_outDir : string :=
  "The tsconfig.json file must have a " ++ dquote ++ "compilerOptions.outDir"
  ++ dquote ++ " option".

Section Resolver.
(** [path.resolve(__dirname, p)] on a string. *)
Variable absolute : string -> string.

(** [resolve(v)]: [path.resolve] throws a [TypeError] when an argument is
    not a string. *)
Definition resolve (v : value) : exn + string :=
  match v with
  | JString p => inr (absolute p)
  | _ => inl (TypeError "ERR_INVALID_ARG_TYPE")
  end.

Definition resolveOutDir (d : document) : exn + string :=
  match parse_tsconfig d with
  | inl e => inl e
  | inr tsconfig =>
      if negb (truthy tsconfig) || negb (typeof_object tsconfig)
         || instanceof_Array tsconfig
      then inl (Error invalid_tsconfig)
      else if truthy (member tsconfig "extends")
      then inl (Error no_extends)
      else if negb (truthy (member (member tsconfig "compilerOptions") "outDir"))
      then inl (Error no_outDir)
      else resolve (member (member tsconfig "compilerOptions") "outDir")
  end.
End Resolver.

(** ** The script body *)

(** What the script finds around it: the two files of the project root, and
    the compiler, an external process that is given the staging directory
    and leaves a status ([None] for [null]) and a staging directory. *)
Record project := {
  absolute_path : string -> string;
  tsconfig_json : document;
  LICENSE_txt : option string;
  npx_tsc : option node -> option Z * option node
}.

Definition readFileSync_LICENSE (proj : project) : exn + string :=
  match LICENSE_txt proj with
  | Some text => inr text
  | None => inl (MissingFile "LICENSE.txt")
  end.

(** [text.replace(/\n$/, '')] *)
Fixpoint chomp (text : string) : string :=
  match text with
  | EmptyString => EmptyString
  | String c rest =>
      match rest with
      | EmptyString => if Ascii.eqb c (ascii_of_nat 10) then EmptyString else text
      | String _ _ => String c (chomp rest)
      end
  end.

Definition stars : string := string_of_list_ascii (repeat "*"%char 77).

Definition license_of (text : string) : string :=
  "/*! " ++ stars ++ LF ++ chomp text ++ LF ++ stars ++ " */" ++ LF.

(** [tsc(tmpDir)]: the compiler has run when [spawnSync] returns; a truthy
    status ends the process. *)
Definition tsc (proj : project) (s : state) : outcome + state :=
  let '(status, tree) := npx_tsc proj (staging s) in
  let s1 := set_store Staging tree s in
  match status with
  | Some c => if Z.eqb c 0 then inr s1 else inl (kill c [] s1)
  | None => inr s1
  end.

(** The number of turns the event loop is given: one for each entry of the
    staging directory, and one. *)
Definition ticks_for (s : state) : nat :=
  match staging s with
  | Some (Dir es) => S (List.length es)
  | _ => 1
  end.

(** A fresh process on the two trees as they are on disk. *)
Definition boot (tmp out : option node) : state :=
  {| staging := tmp; output := out; console := []; pending := [];
     unhandled := [] |}.

Definition outDir : path := (Output, []).

Section Script.
Variable rt : runtime.
Variable proj : project.

(** Lines 87 to 90: the staging directory is made and emptied and the
    output directory is resolved; its absolute path is where the [Output]
    root lives. *)
Definition prelude : M string :=
  mkdirSync_recursive tmpDir ;;
  empty tmpDir ;;
  fun s => (resolveOutDir (absolute_path proj) (tsconfig_json proj), s).

(** Lines 92 to 96: the license text is built, the output directory is
    emptied. *)
Definition prepare : M string :=
  text <- (fun s => (readFileSync_LICENSE proj, s)) ;;
  empty outDir ;;
  ret (license_of text).

(** An exception no one catches ends the script. *)
Definition main (s : state) : outcome :=
  match prelude s with
  | (inl e, s1) => Uncaught e s1
  | (inr _, s1) =>
      match tsc proj s1 with
      | inl killed => killed
      | inr s2 =>
          match prepare s2 with
          | (inl e, s3) => Uncaught e s3
          | (inr license, s3) => normalize rt (ticks_for s3) outDir license s3
          end
      end
  end.

(** One run of the build on the trees found on disk. *)
Definition build (tmp out : option node) : outcome := main (boot tmp out).
End Script.

End Build.

(** * [src/EnvironmentError.ts] and [src/utils.ts] *)

Module Utils.

Section Browser.
(** The browser's global object, the values functions return, what they
    may throw, and everything a call can change. *)
Variables (Window T E World : Type).

(** A function taking [window]: its [name] property and what calling it
    does. *)
Record BrowserFn := {
  fn_name : string;
  call : Window -> World -> (E + T) * World
}.

(** An instance of [EnvironmentError].  The class gives its instances no
    own [name]; the property is defined on the prototype. *)
Record EnvironmentError := {
  own_name : option string;
  message : string;
  fn : BrowserFn
}.

(** [Object.defineProperty(EnvironmentError.prototype, 'name', ...)] *)
Definition prototype_name : string := "EnvironmentError".

(** [error.name]: the own property, else the prototype's. *)
Definition name (error : EnvironmentError) : string :=
  match own_name error with
  | Some n => n
  | None => prototype_name
  end.

(** [new EnvironmentError(fn)]; a string is truthy when it is not empty. *)
Definition new_EnvironmentError (fn : BrowserFn) : EnvironmentError :=
  let name := if negb (String.eqb (fn_name fn) EmptyString)
              then ("Function " ++ fn_name fn)%string
              else "Anonymous function" in
  {| own_name := None;
     message :=
       (name ++ " executed on wrong environment, expected browser")%string;
     fn := fn |}.

(** What comes out of a helper as an exception: the error object the
    helper has just built, or whatever the function it called threw. *)
Inductive thrown :=
| Own (error : EnvironmentError)
| Passed (e : E).

Definition passing (r : (E + T) * World) : (thrown + T) * World :=
  match r with
  | (inl e, w) => (inl (Passed e), w)
  | (inr v, w) => (inr v, w)
  end.

(** The global [window]: the browser's object, or [undefined]. *)
Variable window : option Window.

(** [console.error(error)] *)
Variable console_error : EnvironmentError -> World -> World.

Definition onBrowser (fn : BrowserFn) (fallbackValue : T) (w : World)
  : (E + T) * World :=
  match window with
  | Some win => call fn win w
  | None => (inr fallbackValue, w)
  end.

Definition onBrowserOrThrow (fn : BrowserFn) (w : World)
  : (thrown + T) * World :=
  match window with
  | Some win => passing (call fn win w)
  | None => (inl (Own (new_EnvironmentError fn)), w)
  end.

Definition onBrowserOrWarn (fn : BrowserFn) (fallbackValue : T) (w : World)
  : (E + T) * World :=
  let w1 := match window with
            | Some _ => w
            | None => console_error (new_EnvironmentError fn) w
            end in
  match window with
  | Some win => call fn win w1
  | None => (inr fallbackValue, w1)
  end.
End Browser.

Arguments passing {Window T E World} r.

End Utils.

(** * What the specification says, and the inputs used below *)

Module Spec.
Import Fs Build.
Local Open Scope string_scope.

(** ** The resolver's failure conditions, in the specification's words *)

(** The document is an object. *)
Definition is_object (v : value) : bool :=
  match v with JObject _ => true | _ => false end.

Definition has_property (k : string) (v : value) : bool :=
  match v with
  | JObject props => existsb (fun p => String.eqb (fst p) k) props
  | _ => false
  end.

(** The document uses the inheritance feature. *)
Definition uses_extends (v : value) : bool := has_property "extends" v.

(** The document has the output-path setting. *)
Definition has_outDir (v : value) : bool :=
  has_property "compilerOptions" v
  && has_property "outDir" (member v "compilerOptions").

Definition listed_failure (d : document) : bool :=
  match d with
  | Absent | Malformed => true
  | Parsed v => negb (is_object v) || uses_extends v || negb (has_outDir v)
  end.

(** The value the script reads as the output path. *)
Definition configured_outDir (d : document) : value :=
  match d with
  | Parsed v => member (member v "compilerOptions") "outDir"
  | _ => JUndefined
  end.

(** The resolver's contract as the specification states it, at one
    document. *)
Definition resolver_contract (absolute : string -> string) (d : document)
  : Prop :=
  ((exists e, resolveOutDir absolute d = inl e) <-> listed_failure d = true)
  /\ (listed_failure d = false ->
      exists p, configured_outDir d = JString p
                /\ resolveOutDir absolute d = inr (absolute p)).

(** The conditions the code tests. *)
Definition is_string (v : value) : bool :=
  match v with JString _ => true | _ => false end.

Definition rejected (d : document) : bool :=
  match d with
  | Absent | Malformed => true
  | Parsed v =>
      negb (is_object v)
      || truthy (member v "extends")
      || negb (truthy (configured_outDir d))
      || negb (is_string (configured_outDir d))
  end.

(** ** A project whose compiler output has a subdirectory *)

Definition utils_js : string := "export function onBrowser() {}".
Definition react_js : string := "export function useBrowserCallback() {}".

Definition compiled : node :=
  Dir [("react", Dir [("index.js", File react_js)]);
       ("utils.js", File utils_js);
       ("utils.js.map", File "{}")].

Definition without_subdirectory : node :=
  Dir [("utils.js", File utils_js); ("utils.js.map", File "{}")].

Definition nested_only : node :=
  Dir [("react", Dir [("index.js", File react_js)])].

Definition MIT : string := "MIT License" ++ LF.

Definition sample_project (status : option Z) (emitted : option node)
  : project :=
  {| absolute_path := fun p => "/project/" ++ p;
     tsconfig_json :=
       Parsed (JObject [("compilerOptions",
                         JObject [("outDir", JString "lib")])]);
     LICENSE_txt := Some MIT;
     npx_tsc := fun _ => (status, emitted) |}.

Definition node_js (frames : nat) (strict : bool) : runtime :=
  {| stack_limit := frames; strict_rejections := strict |}.

(** A configuration whose output path is a number. *)
Definition numeric_outDir : document :=
  Parsed (JObject [("compilerOptions",
                    JObject [("outDir", JNumber (Finite false 5 0))])]).

(** A configuration with an empty [extends], and one with an empty output
    path. *)
Definition empty_extends : document :=
  Parsed (JObject [("extends", JString EmptyString);
                   ("compilerOptions", JObject [("outDir", JString "lib")])]).

Definition empty_outDir : document :=
  Parsed (JObject [("compilerOptions",
                    JObject [("outDir", JString EmptyString)])]).

(** ** A staging directory without subdirectories *)

(** The directory that holds the given files, name and content. *)
Definition staged_files (files : list (string * string)) : node :=
  Dir (map (fun f => (fst f, File (snd f))) files).

(** What the specification asks the output directory to hold for them. *)
Definition licensed (license : string) (files : list (string * string))
  : entries_t :=
  map (fun f => (fst f, File (license ++ snd f)))
    (filter (fun f => qualifying (fst f)) files).

(** ** Reading the end of a run *)

Definition output_of (o : outcome) : option node :=
  match final o with
  | Some s => output s
  | None => None
  end.

Definition staging_of (o : outcome) : option node :=
  match final o with
  | Some s => staging s
  | None => None
  end.

Definition printed (o : outcome) : list (list exn) :=
  match final o with
  | Some s => console s
  | None => []
  end.

Definition unhandled_of (o : outcome) : list exn :=
  match final o with
  | Some s => unhandled s
  | None => []
  end.

(** The exception that reached the runtime, if one did. *)
Definition uncaught (o : outcome) : option exn :=
  match o with
  | Uncaught e _ => Some e
  | _ => None
  end.

Definition crashed (r : run) : option (exn * list (list exn)) :=
  match r with
  | Crashed e s => Some (e, console s)
  | _ => None
  end.

Definition file_in (tree : option node) (p : list string) : option node :=
  match tree with
  | Some n => get p n
  | None => None
  end.

(** The files a suspended call is still copying. *)
Definition in_flight (s : state) : list path :=
  map (fun c => join (fr_outDir (snd c)) (fr_name (snd c))) (pending s).

(** ** The shape of the output directory during a build

    Once [empty(outDir)] has run the output directory holds files only,
    and the walk adds nothing but files to it. *)
Definition all_files (es : entries_t) : bool :=
  forallb (fun e => match snd e with File _ => true | Dir _ => false end) es.

Definition flat (s : state) : Prop :=
  exists es, output s = Some (Dir es) /\ all_files es = true.

(** The part of the state the calls under the staging root leave alone. *)
Definition same_output (s s' : state) : Prop :=
  output s' = output s /\ pending s' = pending s.

(** The calls waiting on a copy are at most the walk the script started,
    with fewer entries left than the event loop has turns. *)
Definition root_only (ticks : nat) (s : state) : Prop :=
  pending s = []
  \/ exists k, pending s = [(Root, k)]
               /\ fr_outDir k = outDir
               /\ fst (fr_tmpDir k) = Staging
               /\ (List.length (fr_rest k) < ticks)%nat.

End Spec.

(** * The functions [utils.ts] builds: [browserFn] and its variants *)

Module Callbacks.

Section Callbacks.
(** The browser's global object, the values functions take and return,
    what they may throw, and everything a call can change. *)
Variables (Window T E World : Type).

(** [undefined], among the values. *)
Variable undefined : T.

(** A function of [window] and further arguments: its [name] property and
    what calling it does. *)
Record AnyBrowserFn := {
  fn_name : string;
  apply : Window -> list T -> World -> (E + T) * World
}.

(** An instance of [EnvironmentError]; its [name] lives on the prototype. *)
Record EnvironmentError := {
  own_name : option string;
  message : string;
  fn : AnyBrowserFn
}.

Definition new_EnvironmentError (fn : AnyBrowserFn) : EnvironmentError :=
  let name := if negb (String.eqb (fn_name fn) EmptyString)
              then ("Function " ++ fn_name fn)%string
              else "Anonymous function" in
  {| own_name := None;
     message :=
       (name ++ " executed on wrong environment, expected browser")%string;
     fn := fn |}.

(** What a call may throw: an error object built by this library, or
    whatever a function of the caller threw. *)
Inductive thrown :=
| Own (error : EnvironmentError)
| Passed (e : E).

Definition passing (r : (E + T) * World) : (thrown + T) * World :=
  match r with
  | (inl e, w) => (inl (Passed e), w)
  | (inr v, w) => (inr v, w)
  end.

(** A function as the library returns it or takes it as fallback: its
    [name] and what calling it with arguments does. *)
Record AnyFn := {
  name : string;
  invoke : list T -> World -> (thrown + T) * World
}.

(** [function voidFn() {}] *)
Definition voidFn : AnyFn :=
  {| name := "voidFn"; invoke := fun _ w => (inr undefined, w) |}.

(** [fn.bind(null, window)] *)
Definition bind_window (fn : AnyBrowserFn) (window : Window) : AnyFn :=
  {| name := ("bound " ++ fn_name fn)%string;
     invoke := fun args w => passing (apply fn window args w) |}.

(** [console.error(error)] *)
Variable console_error : EnvironmentError -> World -> World.

(** [EnvironmentError.throwingFn(fn)] *)
Definition throwingFn (fn : AnyBrowserFn) : AnyFn :=
  {| name := EmptyString;
     invoke := fun _ w => (inl (Own (new_EnvironmentError fn)), w) |}.

(** [EnvironmentError.warningFn(fn, fallbackFn)]: the arrow function logs,
    calls the fallback, and has no [return]. *)
Definition warningFn (fn : AnyBrowserFn) (fallbackFn : AnyFn) : AnyFn :=
  {| name := EmptyString;
     invoke := fun args w =>
       match invoke fallbackFn args (console_error (new_EnvironmentError fn) w) with
       | (inl e, w') => (inl e, w')
       | (inr _, w') => (inr undefined, w')
       end |}.

(** The global [window]: the browser's object, or [undefined]. *)
Variable window : option Window.

(** A parameter with the default [= voidFn]. *)
Definition or_voidFn (fallbackFn : option AnyFn) : AnyFn :=
  match fallbackFn with
  | Some f => f
  | None => voidFn
  end.

Definition browserFn (fn : AnyBrowserFn) (fallbackFn : option AnyFn) : AnyFn :=
  match window with
  | Some win => bind_window fn win
  | None => or_voidFn fallbackFn
  end.

Definition browserFnOrThrow (fn : AnyBrowserFn) : AnyFn :=
  match window with
  | Some win => bind_window fn win
  | None => throwingFn fn
  end.

Definition browserFnOrWarn (fn : AnyBrowserFn) (fallbackFn : option AnyFn)
  : AnyFn :=
  match window with
  | Some win => bind_window fn win
  | None => warningFn fn (or_voidFn fallbackFn)
  end.
End Callbacks.

Arguments passing {Window T E World} r.
Arguments Passed {Window T E World} e.

End Callbacks.

(** * More of what holds during a walk *)

Module Shape.
Import Fs Build.

(** Every name in the output directory satisfies [P]. *)
Definition names_in (P : string -> Prop) (s : state) : Prop :=
  forall es x c, output s = Some (Dir es) -> In (x, c) es -> P x.

(** Every file of a listing that the walk would copy satisfies [P]. *)
Definition entries_in (P : string -> Prop) (entries : list dirent) : Prop :=
  forall e, In e entries ->
            isDirectory e = false -> qualifying (name e) = true -> P (name e).

(** A qualifying file at the top of the given directory. *)
Definition top_level_file (es : entries_t) (x : string) : Prop :=
  qualifying x = true /\ exists c, In (x, File c) es.

End Shape.

Import Fs Build Spec.
Local Open Scope string_scope.

(** * [EnvironmentError] and the helpers of [utils.ts] *)

(** C10: the error built for [fn] keeps [fn] in its [fn] field, is named
    EnvironmentError, and its message starts with the function's name when
    that name is not empty and with Anonymous function otherwise. *)
Theorem EnvironmentError_new :
  forall (Window T E World : Type) (f : Utils.BrowserFn Window T E World),
    let error := Utils.new_EnvironmentError f in
    Utils.fn error = f
    /\ Utils.name error = "EnvironmentError"
    /\ (Utils.fn_name f <> EmptyString ->
        Utils.message error
        = "Function " ++ Utils.fn_name f
          ++ " executed on wrong environment, expected browser")
    /\ (Utils.fn_name f = EmptyString ->
        Utils.message error
        = "Anonymous function executed on wrong environment, expected browser").
Proof.
  intros Window T E World f. cbv zeta.
  unfold Utils.new_EnvironmentError, Utils.name, Utils.prototype_name.
  cbn [Utils.fn Utils.own_name Utils.message].
  repeat split.
  - intro Hname. apply String.eqb_neq in Hname. rewrite Hname. reflexivity.
  - intro Hname. rewrite Hname. reflexivity.
Qed.

(** C8: [onBrowserOrThrow(fn)] throws an error of its own exactly when
    [window] is undefined, and that error is [new EnvironmentError(fn)];
    when [window] is defined the call is [fn(window)], value, exception and
    effects alike. *)
Theorem onBrowserOrThrow_throws_iff_no_window :
  forall (Window T E World : Type) (window : option Window)
         (f : Utils.BrowserFn Window T E World) (w : World),
    ((exists error, fst (Utils.onBrowserOrThrow window f w) = inl (Utils.Own error))
     <-> window = None)
    /\ match window with
       | Some win => Utils.onBrowserOrThrow window f w = Utils.passing (Utils.call f win w)
       | None =>
           Utils.onBrowserOrThrow window f w
           = (inl (Utils.Own (Utils.new_EnvironmentError f)), w)
       end.
Proof.
  intros Window T E World window f w. unfold Utils.onBrowserOrThrow.
  destruct window as [win|]; (split; [split|reflexivity]).
  - intros [error Herr]. unfold Utils.passing in Herr.
    destruct (Utils.call f win w) as [[e|v] w']; discriminate Herr.
  - discriminate.
  - reflexivity.
  - intros _. eexists. reflexivity.
Qed.

(** C9: [onBrowserOrWarn] returns what [onBrowser] returns; with [window]
    defined the two calls are the same, without it the only difference is
    one [console.error] of a new EnvironmentError. *)
Theorem onBrowserOrWarn_returns_as_onBrowser :
  forall (Window T E World : Type) (window : option Window)
         (console_error : Utils.EnvironmentError Window T E World -> World -> World)
         (f : Utils.BrowserFn Window T E World) (fallbackValue : T) (w : World),
    fst (Utils.onBrowserOrWarn window console_error f fallbackValue w)
    = fst (Utils.onBrowser window f fallbackValue w)
    /\ match window with
       | Some _ =>
           Utils.onBrowserOrWarn window console_error f fallbackValue w
           = Utils.onBrowser window f fallbackValue w
       | None =>
           snd (Utils.onBrowserOrWarn window console_error f fallbackValue w)
           = console_error (Utils.new_EnvironmentError f)
               (snd (Utils.onBrowser window f fallbackValue w))
       end.
Proof.
  intros Window T E World window console_error f fallbackValue w.
  unfold Utils.onBrowserOrWarn, Utils.onBrowser.
  destruct window as [win|]; split; reflexivity.
Qed.

(** * The output directory resolver *)

Lemma object_test :
  forall v,
    negb (truthy v) || negb (typeof_object v) || instanceof_Array v
    = negb (is_object v).
Proof.
  intros [ | | [|] | [ | neg | neg m e] | s | items | props ]; try reflexivity.
  - cbn. destruct (N.eqb m 0); reflexivity.
  - cbn. destruct (String.eqb s EmptyString); reflexivity.
Qed.

Lemma resolveOutDir_cases :
  forall absolute v,
    resolveOutDir absolute (Parsed v)
    = if negb (is_object v) then inl (Error invalid_tsconfig)
      else if truthy (member v "extends") then inl (Error no_extends)
      else if negb (truthy (configured_outDir (Parsed v)))
      then inl (Error no_outDir)
      else resolve absolute (configured_outDir (Parsed v)).
Proof.
  intros absolute v. unfold resolveOutDir, parse_tsconfig.
  rewrite object_test. reflexivity.
Qed.

(** C5, as the code has it: the resolver fails exactly when the document is
    absent, malformed or not an object, when its [extends] is truthy, when
    [compilerOptions.outDir] is missing or falsy, or when that value is not
    a string; otherwise it returns the absolute path of the configured
    string. *)
Theorem resolveOutDir_fails_iff_rejected :
  forall (absolute : string -> string) (d : document),
    ((exists e, resolveOutDir absolute d = inl e) <-> rejected d = true)
    /\ (rejected d = false ->
        exists p, configured_outDir d = JString p
                  /\ resolveOutDir absolute d = inr (absolute p)).
Proof.
  intros absolute [ | | v].
  - split; [split; [reflexivity | intros _; eexists; reflexivity] | discriminate].
  - split; [split; [reflexivity | intros _; eexists; reflexivity] | discriminate].
  - rewrite resolveOutDir_cases. unfold rejected.
    destruct (is_object v); cbn [negb orb].
    2:{ split; [split; [reflexivity | intros _; eexists; reflexivity]
               | discriminate]. }
    destruct (truthy (member v "extends")); cbn [orb].
    1:{ split; [split; [reflexivity | intros _; eexists; reflexivity]
               | discriminate]. }
    destruct (configured_outDir (Parsed v)) as
      [ | | b | n | s | items | props ] eqn:Hout;
      try (destruct (truthy _); cbn [negb orb is_string resolve];
           (split; [split; [reflexivity | intros _; eexists; reflexivity]
                   | discriminate])).
    destruct (truthy (JString s)); cbn [negb orb is_string resolve].
    + split.
      * split; [intros [e He]; discriminate He | discriminate].
      * intros _. exists s. split; reflexivity.
    + split; [split; [reflexivity | intros _; eexists; reflexivity]
             | discriminate].
Qed.

(** C5 as stated fails where [compilerOptions.outDir] is the number 5: none
    of the listed conditions holds, and the resolver throws. *)
Lemma resolver_contract_fails_on_numeric_outDir :
  ~ resolver_contract (fun p => "/project/" ++ p) numeric_outDir.
Proof.
  intros [[Hfails _] _].
  assert (Hthrown : exists e,
             resolveOutDir (fun p => "/project/" ++ p) numeric_outDir = inl e)
    by (eexists; reflexivity).
  specialize (Hfails Hthrown). discriminate Hfails.
Qed.

(** Two more documents on which the contract as stated fails: an empty
    [extends] is present and the resolver returns a path; an empty
    [outDir] is present and the resolver fails. *)
Lemma resolver_contract_fails_on_empty_extends :
  ~ resolver_contract (fun p => "/project/" ++ p) empty_extends.
Proof.
  intros [[_ Hlisted] _].
  destruct (Hlisted eq_refl) as [e He]. discriminate He.
Qed.

Lemma resolver_contract_fails_on_empty_outDir :
  ~ resolver_contract (fun p => "/project/" ++ p) empty_outDir.
Proof.
  intros [[Hfails _] _].
  assert (Hthrown : exists e,
             resolveOutDir (fun p => "/project/" ++ p) empty_outDir = inl e)
    by (eexists; reflexivity).
  specialize (Hfails Hthrown). discriminate Hfails.
Qed.

(** * The walk over a compiler output with a subdirectory *)

(** C1, where the code departs from it: the compiler leaves react/index.js
    in the staging tree, and after the build the output tree has no file
    at react/index.js: it holds utils.js and nothing else.  Where
    unhandled rejections are only reported utils.js is the license
    followed by its content; where they end the process the copy of
    utils.js never completes, and the file its write stream has opened is
    left empty. *)
Theorem nested_qualifying_file_is_not_copied :
  forall (frames : nat) (strict : bool),
    let built := build (node_js (S (S frames)) strict)
                   (sample_project (Some 0%Z) (Some compiled))
                   None (Some (Dir [])) in
    get ["react"; "index.js"] compiled = Some (File react_js)
    /\ qualifying "index.js" = true
    /\ file_in (output_of built) ["react"; "index.js"] = None
    /\ output_of built
       = Some (Dir [("utils.js",
                     File (if strict then EmptyString
                           else license_of MIT ++ utils_js))]).
Proof.
  intros frames [|]; vm_compute; repeat split.
Qed.

(** C2, where the code departs from it: the call made for the subdirectory
    react/ runs [mkdirSync] on the staging directory, which exists, so the
    destination react/ is still missing when the license is written, and
    the write fails. *)
Theorem destination_subdirectory_is_not_created :
  forall (frames : nat),
    let s0 := boot (Some nested_only) (Some (Dir [])) in
    mkdirSync_recursive (join tmpDir "react") s0 = (inr tt, s0)
    /\ lookup (join outDir "react") s0 = None
    /\ processFiles (S frames) (join tmpDir "react") (join outDir "react")
         (license_of MIT) s0
       = (Rejected (SystemError ENOENT (Output, ["react"; "index.js"])), s0).
Proof.
  intros frames; vm_compute; repeat split.
Qed.

(** C3, where the code departs from it: with react/ already present in the
    output directory, the walk's promise is fulfilled while the call for
    react/ is still suspended on its copy, and react/index.js holds the
    license alone.  With react/ absent the promise is fulfilled although
    the write for react/index.js has failed. *)
Theorem walk_fulfilled_before_nested_copy :
  forall (frames : nat),
    let license := license_of MIT in
    let started := processFiles (S (S frames)) tmpDir outDir license
                     (boot (Some nested_only) (Some (Dir [("react", Dir [])]))) in
    let failed := processFiles (S (S frames)) tmpDir outDir license
                    (boot (Some nested_only) (Some (Dir []))) in
    fst started = Fulfilled
    /\ in_flight (snd started) = [(Output, ["react"; "index.js"])]
    /\ lookup (Output, ["react"; "index.js"]) (snd started)
       = Some (File license)
    /\ fst failed = Fulfilled
    /\ unhandled (snd failed)
       = [SystemError ENOENT (Output, ["react"; "index.js"])].
Proof.
  intros frames; vm_compute; repeat split.
Qed.

(** Deleting never throws: whatever [fs.rmSync] raises is dropped. *)
Lemma remove_never_throws :
  forall p more s, fst (remove p more s) = inr tt.
Proof.
  intros p more s. unfold remove, ignoreError.
  destruct (rmSync_recursive (fold_left join more p) s) as [[e|u] s'];
    reflexivity.
Qed.

Lemma empty_loop_never_throws :
  forall p names s,
    fst (for_of names (fun entry => remove (join p entry) []) s) = inr tt.
Proof.
  intros p. induction names as [|x names IH]; intros s; cbn [for_of].
  - reflexivity.
  - unfold bind. pose proof (remove_never_throws (join p x) [] s) as Hrm.
    destruct (remove (join p x) [] s) as [[e|u] s1]; [discriminate Hrm|].
    apply IH.
Qed.

(** [empty] throws only what listing the directory throws. *)
Lemma empty_throws_only_on_listing :
  forall p s e s',
    empty p s = (inl e, s') -> readdirSync p s = (inl e, s').
Proof.
  intros p s e s'. unfold empty, bind.
  destruct (readdirSync p s) as [[e1|names] s1];
    [intros H; injection H as -> ->; reflexivity|].
  intros H. pose proof (empty_loop_never_throws p names s1) as Hloop.
  rewrite H in Hloop. discriminate Hloop.
Qed.

(** C4, where the code departs from it: the write error raised under
    react/ never reaches [kill].  Where unhandled rejections are only
    reported the build ends with status 0; where they end the process it
    ends with the staging directory left in place and nothing printed by
    the script.  A read error (the staging file is gone when the suspended
    call for react/ gets to it) reaches the runtime, not the walk. *)
Theorem nested_errors_do_not_reach_kill :
  forall (frames : nat),
    let proj := sample_project (Some 0%Z) (Some compiled) in
    let lenient := build (node_js (S (S frames)) false) proj
                     None (Some (Dir [])) in
    let strict := build (node_js (S (S frames)) true) proj
                    None (Some (Dir [])) in
    let failed := SystemError ENOENT (Output, ["react"; "index.js"]) in
    (exit_status lenient = Some 0%Z
     /\ unhandled_of lenient = [failed]
     /\ printed lenient = [])
    /\ (uncaught strict = Some failed
        /\ staging_of strict = Some compiled
        /\ printed strict = [])
    /\ crashed (walk (node_js (S (S frames)) false) 1 outDir (license_of MIT)
                  (boot (Some nested_only) (Some (Dir [("react", Dir [])]))))
       = Some (SystemError ENOENT (Staging, ["react"; "index.js"]), []).
Proof.
  intros frames. vm_compute. repeat split.
Qed.

(** * The build always ends *)

Section FsFacts.

Lemma set_store_same :
  forall r s, set_store r (store r s) s = s.
Proof. intros [|] [tmp out c p u]; reflexivity. Qed.

Lemma set_store_twice :
  forall r v v' s, set_store r v' (set_store r v s) = set_store r v' s.
Proof. intros [|] v v' s; reflexivity. Qed.

Lemma store_set_store :
  forall r v s, store r (set_store r v s) = v.
Proof. intros [|] v s; reflexivity. Qed.

Lemma fst_fold_join :
  forall more p, fst (fold_left join more p) = fst p.
Proof.
  induction more as [|x more IH]; intros p; cbn; [reflexivity|].
  rewrite IH. reflexivity.
Qed.

Lemma same_output_refl : forall s, same_output s s.
Proof. intros s; split; reflexivity. Qed.

Lemma same_output_trans :
  forall s1 s2 s3, same_output s1 s2 -> same_output s2 s3 -> same_output s1 s3.
Proof.
  intros s1 s2 s3 [Ho Hp] [Ho' Hp']. split; congruence.
Qed.

Lemma flat_same_output :
  forall s s', flat s -> same_output s s' -> flat s'.
Proof.
  intros s s' [es [Hout Hfiles]] [Ho _]. exists es. split; congruence.
Qed.

Lemma replace_staging :
  forall p v s s',
    fst p = Staging -> replace p v s = Some s' -> same_output s s'.
Proof.
  intros [r l] v s s' Hr. cbn in Hr. subst r. unfold replace. cbn.
  destruct l as [|x q].
  - intros H. injection H as <-. split; reflexivity.
  - destruct (staging s) as [n|]; [|discriminate].
    destruct (graft x q v n); [|discriminate].
    intros H. injection H as <-. split; reflexivity.
Qed.

Lemma rmSync_staging :
  forall p s r s',
    fst p = Staging -> rmSync_recursive p s = (r, s') -> same_output s s'.
Proof.
  intros p s r s' Hp. unfold rmSync_recursive.
  destruct (lookup p s).
  - destruct (replace p None s) as [s1|] eqn:Hrep; intros H; injection H as _ <-.
    + eapply replace_staging; eassumption.
    + apply same_output_refl.
  - intros H. injection H as _ <-. apply same_output_refl.
Qed.

Lemma remove_staging :
  forall p more s r s',
    fst p = Staging -> remove p more s = (r, s') -> same_output s s'.
Proof.
  intros p more s r s' Hp. unfold remove, ignoreError.
  destruct (rmSync_recursive (fold_left join more p) s) as [[e|u] s1] eqn:Hrm;
    intros H; injection H as _ <-;
    (eapply rmSync_staging; [|eassumption]; rewrite fst_fold_join; exact Hp).
Qed.

Lemma mkdirSync_staging :
  forall p s r s',
    fst p = Staging -> mkdirSync_recursive p s = (r, s') -> same_output s s'.
Proof.
  intros [rt l] s r s' Hp. cbn in Hp. subst rt. unfold mkdirSync_recursive. cbn.
  destruct (mkdirp l (staging s)); intros H; injection H as _ <-;
    split; reflexivity.
Qed.

Lemma assoc_all_files :
  forall x es c,
    all_files es = true -> assoc x es = Some c -> exists d, c = File d.
Proof.
  induction es as [|[y c'] es IH]; intros c Hfiles Hassoc; [discriminate|].
  cbn in Hfiles. apply andb_true_iff in Hfiles as [Hc Hes].
  cbn in Hassoc. destruct (String.eqb y x).
  - injection Hassoc as <-. destruct c' as [d|]; [eauto|discriminate].
  - eapply IH; eassumption.
Qed.

Lemma put_entry_all_files :
  forall x d es,
    all_files es = true -> all_files (put_entry x (File d) es) = true.
Proof.
  induction es as [|[y c] es IH]; intros Hfiles; [reflexivity|].
  cbn in Hfiles. apply andb_true_iff in Hfiles as [Hc Hes].
  cbn. destruct (String.eqb y x); cbn.
  - exact Hes.
  - rewrite Hc. cbn. apply IH. exact Hes.
Qed.

Lemma graft_File :
  forall x q v d, graft x q v (File d) = None.
Proof. intros x [|y q] v d; reflexivity. Qed.

(** In a flat output directory nothing can be written below a
    subdirectory: there is none. *)
Lemma writeFileSync_below_fails :
  forall x y q data s,
    flat s ->
    exists e, writeFileSync (Output, x :: y :: q) data s = (inl e, s).
Proof.
  intros x y q data s [es [Hout Hfiles]].
  unfold writeFileSync, lookup, replace. cbn [fst snd store]. rewrite Hout.
  cbn [get graft].
  destruct (assoc x es) as [c|] eqn:Hassoc.
  - destruct (assoc_all_files _ _ Hfiles Hassoc) as [d ->].
    cbn [get]. rewrite graft_File. eexists. reflexivity.
  - eexists. reflexivity.
Qed.

Lemma writeFileSync_top :
  forall x data s,
    flat s ->
    exists s', writeFileSync (Output, [x]) data s = (inr tt, s')
               /\ flat s' /\ pending s' = pending s.
Proof.
  intros x data s [es [Hout Hfiles]].
  unfold writeFileSync, lookup, replace. cbn [fst snd store]. rewrite Hout.
  cbn [get graft].
  assert (Hflat : flat (set_store Output
                          (Some (Dir (put_entry x (File data) es))) s)).
  { eexists. split; [reflexivity|]. apply put_entry_all_files. exact Hfiles. }
  destruct (assoc x es) as [c|] eqn:Hassoc.
  - destruct (assoc_all_files _ _ Hfiles Hassoc) as [d ->].
    eexists. split; [reflexivity|]. split; [exact Hflat | reflexivity].
  - eexists. split; [reflexivity|]. split; [exact Hflat | reflexivity].
Qed.

End FsFacts.

Section WalkFacts.

Lemma readdir_keeps_state :
  forall p s r s1, readdirSync_withFileTypes p s = (r, s1) -> s1 = s.
Proof.
  intros p s r s1. unfold readdirSync_withFileTypes.
  destruct (lookup p s) as [[c|es]|]; intros H; injection H as _ <-;
    reflexivity.
Qed.

Lemma guarded_mkdir_staging :
  forall (b : bool) tmpD s r s1,
    fst tmpD = Staging ->
    (if negb b then mkdirSync_recursive tmpD else ret tt) s = (r, s1) ->
    same_output s s1.
Proof.
  intros [|] tmpD s r s1 HtmpD; cbn.
  - unfold ret. intros H. injection H as _ <-. apply same_output_refl.
  - apply mkdirSync_staging. exact HtmpD.
Qed.

Lemma dropped_same_output :
  forall p s, (forall k, p <> Awaiting k) -> same_output s (dropped p s).
Proof.
  intros [ |e|k] s Hp; cbn.
  - apply same_output_refl.
  - split; reflexivity.
  - exfalso. apply (Hp k). reflexivity.
Qed.

(** A call made for a subdirectory never gets to its [await] while the
    output directory is flat: the write of the license fails first. *)
Lemma loop_below :
  forall rec : path -> path -> string -> state -> promise * state,
    (forall tmpD x q lic s p s',
        flat s -> fst tmpD = Staging ->
        rec tmpD (Output, x :: q) lic s = (p, s') ->
        (forall k, p <> Awaiting k) /\ same_output s s') ->
    forall entries tmpD x q lic b s p s',
      flat s -> fst tmpD = Staging ->
      loop rec tmpD (Output, x :: q) lic entries b s = (p, s') ->
      (forall k, p <> Awaiting k) /\ same_output s s'.
Proof.
  intros rec Hrec.
  induction entries as [|entry rest IH]; intros tmpD x q lic b s p s' Hflat HtmpD;
    cbn [loop].
  - destruct (remove tmpD [] s) as [r s1] eqn:Hrm.
    intros H. injection H as <- <-. split; [discriminate|].
    eapply remove_staging; eassumption.
  - destruct (isDirectory entry).
    + destruct (rec (join tmpD (name entry)) (join (Output, x :: q) (name entry))
                  lic s) as [p1 s1] eqn:Hcall.
      apply Hrec in Hcall as [Hp1 Hs1]; [|exact Hflat|exact HtmpD].
      intros Hloop.
      pose proof (dropped_same_output s1 Hp1) as Hdrop.
      apply IH in Hloop as [Hp Hs'];
        [|eapply flat_same_output;
          [exact Hflat|eapply same_output_trans; eassumption]
         |exact HtmpD].
      split; [exact Hp|].
      eapply same_output_trans; [|exact Hs'].
      eapply same_output_trans; eassumption.
    + destruct (qualifying (name entry)).
      * unfold bind.
        destruct ((if negb b then mkdirSync_recursive tmpD else ret tt) s)
          as [[e|u] s1] eqn:Hmk;
          pose proof (guarded_mkdir_staging b tmpD s HtmpD Hmk) as Hs1.
        -- intros H. injection H as <- <-. split; [discriminate|exact Hs1].
        -- assert (Hfails : exists e,
                      writeFileSync (join (Output, x :: q) (name entry)) lic s1
                      = (inl e, s1)).
           { destruct q as [|y q]; cbn;
               apply writeFileSync_below_fails;
               eapply flat_same_output; eassumption. }
           destruct Hfails as [e ->].
           intros H. injection H as <- <-. split; [discriminate|exact Hs1].
      * destruct (remove tmpD [name entry] s) as [r s1] eqn:Hrm.
        intros Hloop.
        pose proof (remove_staging _ _ _ HtmpD Hrm) as Hs1.
        apply IH in Hloop as [Hp Hs'];
          [|eapply flat_same_output; eassumption|exact HtmpD].
        split; [exact Hp|]. eapply same_output_trans; eassumption.
Qed.

Lemma processFiles_below :
  forall stack tmpD x q lic s p s',
    flat s -> fst tmpD = Staging ->
    processFiles stack tmpD (Output, x :: q) lic s = (p, s') ->
    (forall k, p <> Awaiting k) /\ same_output s s'.
Proof.
  induction stack as [|stack IH]; intros tmpD x q lic s p s' Hflat HtmpD;
    cbn [processFiles].
  - intros H. injection H as <- <-. split; [discriminate|apply same_output_refl].
  - destruct (readdirSync_withFileTypes tmpD s) as [[e|entries] s1] eqn:Hread;
      apply readdir_keeps_state in Hread; subst s1.
    + intros H. injection H as <- <-.
      split; [discriminate|apply same_output_refl].
    + apply loop_below; [exact IH|exact Hflat|exact HtmpD].
Qed.

(** The walk the script starts keeps the output directory flat, leaves
    the pending calls as they are, and when it suspends, fewer entries
    are left than it was given. *)
Lemma loop_root :
  forall stack entries tmpD lic b s p s',
    flat s -> fst tmpD = Staging ->
    loop (processFiles stack) tmpD outDir lic entries b s = (p, s') ->
    flat s' /\ pending s' = pending s
    /\ (forall k, p = Awaiting k ->
                  fr_outDir k = outDir /\ fst (fr_tmpDir k) = Staging
                  /\ (List.length (fr_rest k) < List.length entries)%nat).
Proof.
  intros stack.
  induction entries as [|entry rest IH]; intros tmpD lic b s p s' Hflat HtmpD;
    cbn [loop].
  - destruct (remove tmpD [] s) as [r s1] eqn:Hrm.
    intros H. injection H as <- <-.
    pose proof (remove_staging _ _ _ HtmpD Hrm) as Hs1.
    split; [eapply flat_same_output; eassumption|].
    split; [apply Hs1|discriminate].
  - destruct (isDirectory entry).
    + destruct (processFiles stack (join tmpD (name entry))
                  (join outDir (name entry)) lic s) as [p1 s1] eqn:Hcall.
      apply processFiles_below in Hcall as [Hp1 Hs1];
        [|exact Hflat|exact HtmpD].
      pose proof (dropped_same_output s1 Hp1) as Hdrop.
      pose proof (same_output_trans Hs1 Hdrop) as Hs2.
      intros Hloop.
      apply IH in Hloop as [Hflat' [Hpending Hk]];
        [|eapply flat_same_output; eassumption|exact HtmpD].
      split; [exact Hflat'|].
      split; [rewrite Hpending; apply Hs2|].
      intros k Hpk. destruct (Hk k Hpk) as [Ho [Ht Hlen]].
      repeat split; [exact Ho|exact Ht|cbn; lia].
    + destruct (qualifying (name entry)).
      * unfold bind.
        destruct ((if negb b then mkdirSync_recursive tmpD else ret tt) s)
          as [[e|u] s1] eqn:Hmk;
          pose proof (guarded_mkdir_staging b tmpD s HtmpD Hmk) as Hs1.
        -- intros H. injection H as <- <-.
           split; [eapply flat_same_output; eassumption|].
           split; [apply Hs1|discriminate].
        -- destruct (writeFileSync_top (name entry) lic
                       (flat_same_output Hflat Hs1))
             as [s2 [Hwrite [Hflat2 Hpending2]]].
           change (join outDir (name entry)) with (Output, [name entry]).
           rewrite Hwrite.
           intros H. injection H as <- <-.
           split; [exact Hflat2|].
           split; [rewrite Hpending2; apply Hs1|].
           intros k Hk. injection Hk as <-. cbn.
           repeat split; [exact HtmpD|lia].
      * destruct (remove tmpD [name entry] s) as [r s1] eqn:Hrm.
        pose proof (remove_staging _ _ _ HtmpD Hrm) as Hs1.
        intros Hloop.
        apply IH in Hloop as [Hflat' [Hpending Hk]];
          [|eapply flat_same_output; eassumption|exact HtmpD].
        split; [exact Hflat'|].
        split; [rewrite Hpending; apply Hs1|].
        intros k Hpk. destruct (Hk k Hpk) as [Ho [Ht Hlen]].
        repeat split; [exact Ho|exact Ht|cbn; lia].
Qed.

End WalkFacts.

Section EventLoopFacts.
Variable rt : runtime.

Lemma set_pending_flat :
  forall l s, flat s -> flat (set_pending l s).
Proof. intros l s [es H]. exists es. exact H. Qed.

(** A copy into the output directory itself keeps it flat. *)
Lemma processFile_root :
  forall tmpD filename lic s,
    flat s ->
    match processFile tmpD outDir filename lic s with
    | Finish s' | WriteStreamError _ s' | ReadStreamError _ s' =>
        flat s' /\ pending s' = pending s
    end.
Proof.
  intros tmpD filename lic s Hflat. unfold processFile.
  change (join outDir filename) with (Output, [filename]).
  destruct (read_stream (join tmpD filename) s) as [e|data].
  - split; [exact Hflat|reflexivity].
  - destruct (writeFileSync_top filename lic Hflat)
      as [s1 [-> [Hflat1 Hpending1]]].
    destruct (writeFileSync_top filename (lic ++ data) Hflat1)
      as [s2 [-> [Hflat2 Hpending2]]].
    split; [exact Hflat2|congruence].
Qed.

(** Writing a file changes one of the two trees and nothing else. *)
Lemma writeFileSync_keeps :
  forall p data s r s',
    writeFileSync p data s = (r, s') ->
    pending s' = pending s /\ unhandled s' = unhandled s
    /\ console s' = console s
    /\ (fst p = Output -> staging s' = staging s).
Proof.
  intros [root q] data s r s'. unfold writeFileSync, replace.
  cbn [fst snd].
  assert (Hset : forall v,
             pending (set_store root v s) = pending s
             /\ unhandled (set_store root v s) = unhandled s
             /\ console (set_store root v s) = console s
             /\ (root = Output -> staging (set_store root v s) = staging s)).
  { intros v. destruct root; repeat split; discriminate. }
  destruct (lookup (root, q) s) as [[c|es]|];
    try (intros H; injection H as _ <-; repeat split);
    (destruct q as [|x q];
     [intros H; injection H as _ <-; apply Hset|]);
    (destruct (store root s) as [n|];
     [|intros H; injection H as _ <-; repeat split]);
    (destruct (graft x q (Some (File data)) n) as [n'|];
     intros H; injection H as _ <-; [apply Hset|repeat split]).
Qed.

Lemma open_write_keeps :
  forall o x s,
    pending (open_write o x s) = pending s
    /\ unhandled (open_write o x s) = unhandled s
    /\ console (open_write o x s) = console s
    /\ (fst o = Output -> staging (open_write o x s) = staging s).
Proof.
  intros o x s. unfold open_write.
  destruct (writeFileSync (join o x) EmptyString s) as [r s'] eqn:Hwrite.
  apply writeFileSync_keeps in Hwrite.
  destruct o as [root q]. exact Hwrite.
Qed.

Lemma opening_keeps :
  forall l s,
    let s' := fold_left
                (fun s' (c : owner * frame) =>
                   open_write (fr_outDir (snd c)) (fr_name (snd c)) s') l s in
    pending s' = pending s /\ unhandled s' = unhandled s
    /\ console s' = console s.
Proof.
  induction l as [|c l IH]; intros s; cbn [fold_left].
  - repeat split.
  - cbv zeta in IH.
    destruct (IH (open_write (fr_outDir (snd c)) (fr_name (snd c)) s))
      as [Hp [Hu Hc]].
    destruct (open_write_keeps (fr_outDir (snd c)) (fr_name (snd c)) s)
      as [Hp' [Hu' [Hc' _]]].
    cbv zeta. repeat split; congruence.
Qed.

Lemma opened_pending : forall s, pending (opened s) = pending s.
Proof. intros s. apply (opening_keeps (pending s) s). Qed.

Lemma opened_unhandled : forall s, unhandled (opened s) = unhandled s.
Proof. intros s. apply (opening_keeps (pending s) s). Qed.

Lemma opened_console : forall s, console (opened s) = console s.
Proof. intros s. apply (opening_keeps (pending s) s). Qed.

Lemma opened_none : forall s, pending s = [] -> opened s = s.
Proof. intros s Hnone. unfold opened. rewrite Hnone. reflexivity. Qed.

Lemma opened_one :
  forall o k s,
    pending s = [(o, k)] -> opened s = open_write (fr_outDir k) (fr_name k) s.
Proof. intros o k s Hone. unfold opened. rewrite Hone. reflexivity. Qed.

(** The stream of a copy into the output directory itself opens its file,
    and the directory stays flat. *)
Lemma open_write_top :
  forall x s,
    flat s ->
    writeFileSync (Output, [x]) EmptyString s
    = (inr tt, open_write outDir x s)
    /\ flat (open_write outDir x s)
    /\ staging (open_write outDir x s) = staging s.
Proof.
  intros x s Hflat. unfold open_write.
  change (join outDir x) with (Output, [x]).
  destruct (writeFileSync_top x EmptyString Hflat) as [s' [Hwrite [Hflat' _]]].
  rewrite Hwrite. cbn [snd].
  split; [reflexivity|]. split; [exact Hflat'|].
  apply writeFileSync_keeps in Hwrite. apply Hwrite. reflexivity.
Qed.

Lemma opened_root_only :
  forall ticks s,
    flat s -> root_only ticks s ->
    flat (opened s) /\ root_only ticks (opened s)
    /\ staging (opened s) = staging s.
Proof.
  intros ticks s Hflat Hroot.
  assert (Hroot' : root_only ticks (opened s))
    by (unfold root_only; rewrite opened_pending; exact Hroot).
  destruct Hroot as [Hnone | [k [Hone [Hout _]]]].
  - rewrite (@opened_none s Hnone) in *. repeat split; assumption.
  - rewrite (@opened_one Root k s Hone) in *. rewrite Hout in *.
    destruct (@open_write_top (fr_name k) s Hflat) as [_ [Hflat' Hstaging]].
    repeat split; assumption.
Qed.

Lemma event_loop_step :
  forall ticks s,
    event_loop rt ticks s
    = match strict_rejections rt, unhandled (opened s) with
      | true, e :: _ => Crashed e (opened s)
      | _, _ =>
          match pending (opened s) with
          | [] => Drained (opened s)
          | (o, k) :: others =>
              match ticks with
              | O => Stalled
              | S ticks' =>
                  turn rt (event_loop rt ticks') o k
                    (set_pending others (opened s))
              end
          end
      end.
Proof. intros [|ticks] s; reflexivity. Qed.

Lemma event_loop_turn :
  forall ticks o k others s,
    unhandled s = [] -> pending s = (o, k) :: others ->
    event_loop rt (S ticks) s
    = turn rt (event_loop rt ticks) o k (set_pending others (opened s)).
Proof.
  intros ticks o k others s Hun Hpending.
  rewrite event_loop_step, opened_unhandled, opened_pending, Hun, Hpending.
  destruct (strict_rejections rt); reflexivity.
Qed.

(** A turn of the script's walk, alone and over a flat output directory,
    leaves the event loop in such a state again, with fewer entries to
    go. *)
Lemma turn_root_only :
  forall (continue : state -> run) ticks k s,
    (forall s', flat s' -> root_only ticks s' -> continue s' <> Stalled) ->
    flat s -> pending s = [] ->
    fr_outDir k = outDir -> fst (fr_tmpDir k) = Staging ->
    (List.length (fr_rest k) <= ticks)%nat ->
    turn rt continue Root k s <> Stalled.
Proof.
  intros continue ticks k s Hcontinue Hflat Hnone Hout Htmp Hlen.
  unfold turn. rewrite Hout.
  pose proof (processFile_root (fr_tmpDir k) (fr_name k) (fr_license k) Hflat)
    as Hcopy.
  destruct (processFile (fr_tmpDir k) outDir (fr_name k) (fr_license k) s)
    as [s1|e s1|e s1]; [|discriminate|discriminate].
  destruct Hcopy as [Hflat1 Hpending1]. rewrite Hnone in Hpending1.
  unfold resume.
  destruct (remove (fr_tmpDir k) [fr_name k] s1) as [r s1'] eqn:Hrm.
  pose proof (remove_staging _ _ _ Htmp Hrm) as Hs1'.
  rewrite Hout.
  destruct (loop (processFiles (pred (stack_limit rt))) (fr_tmpDir k)
              outDir (fr_license k) (fr_rest k) (fr_outDirCreated k) s1')
    as [p s2] eqn:Hloop.
  apply loop_root in Hloop as [Hflat2 [Hpending2 Hk]];
    [|eapply flat_same_output; eassumption|exact Htmp].
  assert (Hnone2 : pending s2 = []).
  { rewrite Hpending2. destruct Hs1' as [_ ->]. exact Hpending1. }
  destruct p as [ |e|k']; cbn [settle].
  - apply Hcontinue; [exact Hflat2|left; exact Hnone2].
  - discriminate.
  - apply Hcontinue; [apply set_pending_flat; exact Hflat2|].
    right. exists k'. rewrite Hnone2.
    destruct (Hk k' eq_refl) as [Ho [Ht Hlen']].
    repeat split; [exact Ho|exact Ht|lia].
Qed.

(** With a flat output directory and no call pending but the script's
    walk, the event loop never uses up its turns. *)
Lemma event_loop_root_only :
  forall ticks s,
    flat s -> root_only ticks s -> event_loop rt ticks s <> Stalled.
Proof.
  induction ticks as [|ticks IH]; intros s Hflat Hroot;
    rewrite event_loop_step;
    destruct (@opened_root_only _ s Hflat Hroot) as [Hflat0 [Hroot0 _]];
    clear Hflat Hroot; revert Hflat0 Hroot0;
    generalize (opened s); clear s; intros s Hflat Hroot.
  - destruct (strict_rejections rt), (unhandled s); try discriminate;
      (destruct Hroot as [-> | [k [_ [_ [_ Hlen]]]]];
       [discriminate | inversion Hlen]).
  - assert (Hturn : match pending s with
                    | [] => Drained s
                    | (o, k) :: others =>
                        turn rt (event_loop rt ticks) o k (set_pending others s)
                    end <> Stalled).
    { destruct Hroot as [-> | [k [-> [Hout [Htmp Hlen]]]]]; [discriminate|].
      apply turn_root_only with (ticks := ticks);
        [exact IH|apply set_pending_flat; exact Hflat|reflexivity
        |exact Hout|exact Htmp|lia]. }
    destruct (strict_rejections rt), (unhandled s); try exact Hturn;
      discriminate.
Qed.

(** The walk of the script, given one turn for each entry of the staging
    directory and one more, ends. *)
Lemma walk_ends :
  forall lic s,
    flat s -> pending s = [] ->
    walk rt (ticks_for s) outDir lic s <> Stalled.
Proof.
  intros lic s Hflat Hnone. unfold walk.
  destruct (stack_limit rt) as [|stack]; cbn [processFiles settle];
    [discriminate|].
  unfold readdirSync_withFileTypes, lookup, ticks_for. cbn [tmpDir fst snd store].
  destruct (staging s) as [[c|es]|]; cbn [get settle]; try discriminate.
  destruct (loop (processFiles stack) tmpDir outDir lic
              (map (fun e => {| name := fst e;
                                isDirectory := match snd e with
                                               | Dir _ => true
                                               | File _ => false
                                               end |}) es) false s)
    as [p s1] eqn:Hloop.
  apply loop_root in Hloop as [Hflat1 [Hpending1 Hk]];
    [|exact Hflat|reflexivity].
  rewrite Hnone in Hpending1.
  destruct p as [ |e|k]; cbn [settle].
  - apply event_loop_root_only; [exact Hflat1|left; exact Hpending1].
  - discriminate.
  - apply event_loop_root_only; [apply set_pending_flat; exact Hflat1|].
    right. exists k. rewrite Hpending1.
    destruct (Hk k eq_refl) as [Ho [Ht Hlen]]. rewrite length_map in Hlen.
    repeat split; [exact Ho|exact Ht|lia].
Qed.

Lemma normalize_ends :
  forall lic s,
    flat s -> pending s = [] ->
    exists s', final (normalize rt (ticks_for s) outDir lic s) = Some s'.
Proof.
  intros lic s Hflat Hnone. unfold normalize.
  pose proof (walk_ends lic Hflat Hnone) as Hends.
  destruct (walk rt (ticks_for s) outDir lic s) as [s1|e s1|e s1|];
    [| |eexists; reflexivity|contradiction].
  - eexists; reflexivity.
  - unfold kill. destruct (remove tmpDir [] _) as [r s2].
    eexists; reflexivity.
Qed.

(** Where the runtime ends the process on an unhandled rejection, the
    event loop drains only if there is none. *)
Lemma event_loop_strict :
  strict_rejections rt = true ->
  forall ticks s s',
    event_loop rt ticks s = Drained s' -> unhandled s' = [].
Proof.
  intros Hstrict.
  induction ticks as [|ticks IH]; intros s s'; rewrite event_loop_step;
    rewrite Hstrict; generalize (opened s); clear s; intros s;
    (destruct (unhandled s) eqn:Hun; [|discriminate]);
    (destruct (pending s) as [|[o k] others];
     [intros H; injection H as <-; exact Hun|]);
    [discriminate|].
  unfold turn.
  destruct (processFile _ _ _ _ _) as [s1|e s1|e s1]; [| |discriminate].
  - destruct (resume _ k s1) as [[ |e|k'] s2];
      destruct o; cbn [settle]; try discriminate; apply IH.
  - destruct o; cbn [settle]; [discriminate|apply IH].
Qed.

(** The same for the walk as the script starts it. *)
Lemma walk_strict :
  strict_rejections rt = true ->
  forall ticks lic s s',
    walk rt ticks outDir lic s = Drained s' -> unhandled s' = [].
Proof.
  intros Hstrict ticks lic s s'. unfold walk.
  destruct (processFiles (stack_limit rt) tmpDir outDir lic s)
    as [[ |e|k] s1]; cbn [settle];
    [|discriminate|]; apply event_loop_strict; exact Hstrict.
Qed.

End EventLoopFacts.

(** * [empty] and the two phases before the walk *)

Section EmptyFacts.

Lemma assoc_none_remove_entry :
  forall x es, assoc x es = None -> remove_entry x es = es.
Proof.
  induction es as [|[y c] es IH]; intros Hnone; [reflexivity|].
  cbn in Hnone. unfold remove_entry in *. cbn [filter fst].
  destruct (String.eqb y x); [discriminate|].
  cbn [negb]. rewrite IH; [reflexivity|exact Hnone].
Qed.

(** [remove] of an entry of a root directory. *)
Lemma remove_entry_of_root :
  forall r x es s,
    store r s = Some (Dir es) ->
    remove (join (r, []) x) [] s
    = (inr tt, set_store r (Some (Dir (remove_entry x es))) s).
Proof.
  intros r x es s Hstore.
  unfold remove, ignoreError, rmSync_recursive, lookup, replace.
  cbn [fold_left join fst snd app]. rewrite Hstore. cbn [get graft].
  destruct (assoc x es) as [c|] eqn:Hassoc.
  - reflexivity.
  - rewrite (assoc_none_remove_entry _ _ Hassoc), <- Hstore, set_store_same.
    reflexivity.
Qed.

Lemma empty_loop :
  forall r names es s,
    store r s = Some (Dir es) ->
    for_of names (fun entry => remove (join (r, []) entry) []) s
    = (inr tt,
       set_store r
         (Some (Dir (fold_left (fun l x => remove_entry x l) names es))) s).
Proof.
  intros r.
  induction names as [|x names IH]; intros es s Hstore; cbn [for_of fold_left].
  - unfold ret. rewrite <- Hstore, set_store_same. reflexivity.
  - unfold bind. rewrite (@remove_entry_of_root r x es s Hstore).
    rewrite (IH (remove_entry x es)); [|apply store_set_store].
    rewrite set_store_twice. reflexivity.
Qed.

Lemma remove_all_entries :
  forall names (es : entries_t),
    (forall e, In e es -> In (fst e) names) ->
    fold_left (fun l x => remove_entry x l) names es = [].
Proof.
  induction names as [|x names IH]; intros es Hnames; cbn [fold_left].
  - destruct es as [|e es]; [reflexivity|].
    destruct (Hnames e (or_introl eq_refl)).
  - apply IH. intros e He. unfold remove_entry in He.
    apply filter_In in He as [He Hx].
    destruct (Hnames e He) as [Heq|Hin]; [|exact Hin].
    subst x. rewrite String.eqb_refl in Hx. discriminate.
Qed.

(** [empty] of a root that is a directory succeeds and leaves it with no
    entry. *)
Lemma empty_clears :
  forall r es s,
    store r s = Some (Dir es) ->
    empty (r, []) s = (inr tt, set_store r (Some (Dir [])) s).
Proof.
  intros r es s Hstore.
  unfold empty, readdirSync, readdirSync_withFileTypes, lookup, bind, ret.
  cbn [fst snd]. rewrite Hstore. cbn [get].
  rewrite (@empty_loop r _ es s Hstore), remove_all_entries; [reflexivity|].
  intros e He. rewrite map_map. cbn. apply in_map. exact He.
Qed.

Lemma empty_fails :
  forall r s,
    (forall es, store r s <> Some (Dir es)) ->
    exists e, empty (r, []) s = (inl e, s).
Proof.
  intros r s Hnot.
  unfold empty, readdirSync, readdirSync_withFileTypes, lookup, bind.
  cbn [fst snd].
  destruct (store r s) as [[c|es]|]; cbn [get].
  - eexists; reflexivity.
  - destruct (Hnot es eq_refl).
  - eexists; reflexivity.
Qed.

End EmptyFacts.

Section ScriptFacts.
Variable rt : runtime.
Variable proj : project.

Lemma prelude_cases :
  forall s,
    prelude proj s
    = match staging s with
      | Some (File _) => (inl (SystemError EEXIST tmpDir), s)
      | _ => (resolveOutDir (absolute_path proj) (tsconfig_json proj),
              set_store Staging (Some (Dir [])) s)
      end.
Proof.
  intros s. unfold prelude, bind, mkdirSync_recursive.
  cbn [tmpDir fst snd store mkdirp].
  destruct (staging s) as [[c|es]|] eqn:Hstaging.
  - reflexivity.
  - change tmpDir with (Staging, @nil string).
    rewrite (@empty_clears Staging es); [|reflexivity].
    rewrite set_store_twice. reflexivity.
  - change tmpDir with (Staging, @nil string).
    rewrite (@empty_clears Staging []); [|reflexivity].
    rewrite set_store_twice. reflexivity.
Qed.

Lemma prepare_cases :
  forall s,
    match LICENSE_txt proj, output s with
    | None, _ => prepare proj s = (inl (MissingFile "LICENSE.txt"), s)
    | Some text, Some (Dir _) =>
        prepare proj s
        = (inr (license_of text), set_store Output (Some (Dir [])) s)
    | Some _, _ => exists e, prepare proj s = (inl e, s)
    end.
Proof.
  intros s. unfold prepare, bind, readFileSync_LICENSE.
  destruct (LICENSE_txt proj) as [text|]; [|reflexivity].
  change outDir with (Output, @nil string).
  destruct (output s) as [[c|es]|] eqn:Hout.
  - destruct (empty_fails Output s) as [e ->]; [|eexists; reflexivity].
    cbn. rewrite Hout. discriminate.
  - rewrite (@empty_clears Output es); [reflexivity|exact Hout].
  - destruct (empty_fails Output s) as [e ->]; [|eexists; reflexivity].
    cbn. rewrite Hout. discriminate.
Qed.

Lemma kill_cases :
  forall status args s,
    exists s', kill status args s = Exit status s'
               /\ staging s' = None
               /\ output s' = output s
               /\ console s' = match args with
                               | [] => console s
                               | _ :: _ => (console s ++ [args])%list
                               end.
Proof.
  intros status args s. unfold kill, remove, ignoreError, rmSync_recursive,
    lookup, replace.
  cbn [fold_left tmpDir fst snd store].
  destruct args as [|e args]; cbn [console_error staging];
    destruct (staging s) as [n|] eqn:Hstaging; cbn [get];
    eexists; (split; [reflexivity|]); repeat split;
    solve [reflexivity | exact Hstaging].
Qed.

End ScriptFacts.

(** * Running the build *)

Section BuildFacts.
Variable rt : runtime.
Variable proj : project.

Lemma build_file_staging :
  forall c out,
    build rt proj (Some (File c)) out
    = Uncaught (SystemError EEXIST tmpDir) (boot (Some (File c)) out).
Proof.
  intros c out. unfold build, main. rewrite prelude_cases. reflexivity.
Qed.

(** Whatever the staging directory held, it is empty when the compiler
    starts. *)
Lemma build_forgets_staging :
  forall tmp out,
    (forall c, tmp <> Some (File c)) ->
    build rt proj tmp out = build rt proj (Some (Dir [])) out.
Proof.
  intros tmp out Hdir. unfold build, main. rewrite !prelude_cases.
  destruct tmp as [[c|es]|]; [destruct (Hdir c eq_refl)|reflexivity..].
Qed.

(** Either the build gets to the walk, and then from a state that owes
    nothing to what the output directory held; or it ends before, and the
    output directory is as it was. *)
Lemma build_dichotomy :
  (exists lic tree,
      (forall es,
          build rt proj (Some (Dir [])) (Some (Dir es))
          = normalize rt (ticks_for (boot tree (Some (Dir [])))) outDir lic
              (boot tree (Some (Dir []))))
      /\ (forall out,
             (forall es, out <> Some (Dir es)) ->
             exists e,
               build rt proj (Some (Dir [])) out
               = Uncaught e (boot tree out)))
  \/ (forall out,
        exists s, final (build rt proj (Some (Dir [])) out) = Some s
                  /\ output s = out).
Proof.
  assert (Hbuild : forall out,
             build rt proj (Some (Dir [])) out
             = match resolveOutDir (absolute_path proj) (tsconfig_json proj) with
               | inl e => Uncaught e (boot (Some (Dir [])) out)
               | inr _ =>
                   match tsc proj (boot (Some (Dir [])) out) with
                   | inl killed => killed
                   | inr s2 =>
                       match prepare proj s2 with
                       | (inl e, s3) => Uncaught e s3
                       | (inr license, s3) =>
                           normalize rt (ticks_for s3) outDir license s3
                       end
                   end
               end).
  { intros out. unfold build, main. rewrite prelude_cases. cbn [staging boot].
    destruct (resolveOutDir _ _); reflexivity. }
  destruct (resolveOutDir (absolute_path proj) (tsconfig_json proj))
    as [e|resolved].
  { right. intros out. rewrite Hbuild. eexists. split; reflexivity. }
  destruct (npx_tsc proj (Some (Dir []))) as [status tree] eqn:Hnpx.
  assert (Htsc : forall out,
             tsc proj (boot (Some (Dir [])) out)
             = match status with
               | Some c => if Z.eqb c 0 then inr (boot tree out)
                           else inl (kill c [] (boot tree out))
               | None => inr (boot tree out)
               end).
  { intros out. unfold tsc. cbn [staging boot]. rewrite Hnpx. reflexivity. }
  assert (Hwalk : (exists c, status = Some c /\ Z.eqb c 0 = false)
                  \/ forall out,
                      tsc proj (boot (Some (Dir [])) out)
                      = inr (boot tree out)).
  { destruct status as [c|]; [destruct (Z.eqb c 0) eqn:Hc|].
    - right. intros out. rewrite Htsc. reflexivity.
    - left. exists c. split; [reflexivity|exact Hc].
    - right. intros out. rewrite Htsc. reflexivity. }
  destruct Hwalk as [[c [-> Hc]] | Hcompiled].
  { right. intros out. rewrite Hbuild, Htsc. cbv beta iota. rewrite Hc.
    destruct (kill_cases c [] (boot tree out)) as [s [-> [_ [Hout _]]]].
    exists s. split; [reflexivity|exact Hout]. }
  destruct (LICENSE_txt proj) as [text|] eqn:Htext.
  - left. exists (license_of text), tree. split.
    + intros es. rewrite Hbuild, Hcompiled.
      pose proof (prepare_cases proj (boot tree (Some (Dir es)))) as Hprep.
      rewrite Htext in Hprep. cbn [output boot] in Hprep. rewrite Hprep.
      reflexivity.
    + intros out Hout. rewrite Hbuild, Hcompiled.
      pose proof (prepare_cases proj (boot tree out)) as Hprep.
      rewrite Htext in Hprep. cbn [output boot] in Hprep.
      destruct out as [[d|es]|]; [|destruct (Hout es eq_refl)|];
        destruct Hprep as [e ->]; exists e; reflexivity.
  - right. intros out. rewrite Hbuild, Hcompiled.
    pose proof (prepare_cases proj (boot tree out)) as Hprep.
    rewrite Htext in Hprep. rewrite Hprep.
    eexists. split; reflexivity.
Qed.

(** A build that finds the staging path taken by a file, or ends before
    the walk, leaves the output directory as it was. *)
Lemma build_early :
  (forall out,
      exists s, final (build rt proj (Some (Dir [])) out) = Some s
                /\ output s = out) ->
  forall tmp out,
    exists s, final (build rt proj tmp out) = Some s /\ output s = out.
Proof.
  intros Hearly tmp out.
  destruct tmp as [[c|es]|].
  - rewrite build_file_staging. eexists. split; reflexivity.
  - rewrite build_forgets_staging by discriminate. apply Hearly.
  - rewrite build_forgets_staging by discriminate. apply Hearly.
Qed.

(** The build ends, whatever it finds on disk. *)
Lemma build_ends :
  forall tmp out, exists c, exit_status (build rt proj tmp out) = Some c.
Proof.
  intros tmp out.
  assert (Hfinal : exists s, final (build rt proj tmp out) = Some s).
  { destruct build_dichotomy as [[lic [tree [Hwalk Hnodir]]] | Hearly].
    - destruct tmp as [[c|es]|];
        [rewrite build_file_staging; eexists; reflexivity| |];
        rewrite build_forgets_staging by discriminate;
        (destruct out as [[d|es']|];
         [destruct (Hnodir (Some (File d))) as [e ->];
          [discriminate|eexists; reflexivity]
         |rewrite Hwalk; apply normalize_ends;
          [exists []; split; reflexivity|reflexivity]
         |destruct (Hnodir None) as [e ->];
          [discriminate|eexists; reflexivity]]).
    - destruct (build_early Hearly tmp out) as [s [Hs _]]. exists s. exact Hs. }
  destruct Hfinal as [s Hs].
  destruct (build rt proj tmp out); [eexists; reflexivity..|discriminate Hs].
Qed.

End BuildFacts.


(** The exit status of a build, by the way it ends.  It is the low eight
    bits of the compiler's status when that status is not zero, and the
    staging directory has been removed by then; it is 1, with the error
    printed by [console.error] and the staging directory removed, when
    the promise of the walk is rejected; and it is 0 when the walk is
    fulfilled and the event loop drains, which, where the runtime ends
    the process on unhandled rejections, happens only if no rejection is
    left unhandled. *)
Lemma exit_status_by_ending :
  forall (rt : runtime) (proj : project) (tmp out : option node),
    let built := build rt proj tmp out in
    (exists c, exit_status built = Some c)
    /\ (forall resolved s1 c tree,
          prelude proj (boot tmp out) = (inr resolved, s1) ->
          npx_tsc proj (staging s1) = (Some c, tree) ->
          c <> 0%Z ->
          exit_status built = Some (Z.land c 255)
          /\ staging_of built = None
          /\ printed built = [])
    /\ (forall resolved s1 s2 license s3,
          prelude proj (boot tmp out) = (inr resolved, s1) ->
          tsc proj s1 = inr s2 ->
          prepare proj s2 = (inr license, s3) ->
          (forall e s4,
              walk rt (ticks_for s3) outDir license s3 = RootRejected e s4 ->
              exit_status built = Some 1%Z
              /\ printed built = (console s4 ++ [[e]])%list
              /\ staging_of built = None)
          /\ (forall s4,
                 walk rt (ticks_for s3) outDir license s3 = Drained s4 ->
                 built = Idle s4
                 /\ exit_status built = Some 0%Z
                 /\ (strict_rejections rt = true -> unhandled s4 = []))).
Proof.
  intros rt proj tmp out. cbv zeta. split; [apply build_ends|]. split.
  - intros resolved s1 c tree Hprelude Hnpx Hc.
    assert (Hquiet : console s1 = []).
    { rewrite prelude_cases in Hprelude. cbn [staging boot] in Hprelude.
      destruct tmp as [[d|es]|]; [discriminate Hprelude|..];
        injection Hprelude as _ <-; reflexivity. }
    unfold build, main, tsc. rewrite Hprelude, Hnpx.
    destruct (Z.eqb c 0) eqn:Hzero; [apply Z.eqb_eq in Hzero; contradiction|].
    destruct (kill_cases c [] (set_store Staging tree s1))
      as [s' [-> [Hstaging [_ Hconsole]]]].
    unfold staging_of, printed. cbn [exit_status final].
    repeat split; [exact Hstaging|].
    rewrite Hconsole, <- Hquiet. destruct s1; reflexivity.
  - intros resolved s1 s2 license s3 Hprelude Htsc Hprepare. split.
    + intros e s4 Hwalk.
      unfold build, main, normalize. rewrite Hprelude, Htsc, Hprepare, Hwalk.
      destruct (kill_cases 1%Z [e] s4) as [s' [-> [Hstaging [_ Hconsole]]]].
      unfold staging_of, printed. cbn [exit_status final].
      repeat split; assumption.
    + intros s4 Hwalk.
      unfold build, main, normalize. rewrite Hprelude, Htsc, Hprepare, Hwalk.
      repeat split.
      intros Hstrict. eapply walk_strict; eassumption.
Qed.

(** C6, where the code departs from it.  A build whose compiler ends with
    status 2 ends with status 2, the staging directory removed, and a
    build over a compiler output without subdirectories ends with status
    0.  But with react/index.js in the compiler output the normalization
    fails (the write under react/ raises an error, and react/index.js is
    not in the output tree) and, where unhandled rejections are only
    reported, the build still ends with status 0, with nothing printed by
    the script.  Where they end the process the status is 1, by the
    runtime and not by [kill]: the script prints nothing and the staging
    directory stays. *)
Theorem nested_failure_exits_with_status_0 :
  forall (frames : nat),
    let lenient := node_js (S (S frames)) false in
    let strict := node_js (S (S frames)) true in
    let nested := sample_project (Some 0%Z) (Some compiled) in
    let error := SystemError ENOENT (Output, ["react"; "index.js"]) in
    let refused := build lenient (sample_project (Some 2%Z) (Some compiled))
                     None (Some (Dir [])) in
    let copied := build lenient (sample_project (Some 0%Z)
                                   (Some without_subdirectory))
                    None (Some (Dir [])) in
    let failed := build lenient nested None (Some (Dir [])) in
    let ended := build strict nested None (Some (Dir [])) in
    (exit_status refused = Some 2%Z /\ staging_of refused = None)
    /\ exit_status copied = Some 0%Z
    /\ (unhandled_of failed = [error]
        /\ file_in (output_of failed) ["react"; "index.js"] = None
        /\ exit_status failed = Some 0%Z
        /\ printed failed = [])
    /\ (exit_status ended = Some 1%Z
        /\ uncaught ended = Some error
        /\ printed ended = []
        /\ staging_of ended = Some compiled).
Proof.
  intros frames. vm_compute. repeat split.
Qed.


(** * Files at the top of the staging directory

    Where the compiler output has no subdirectory the walk does what the
    specification says: the output directory ends up with the qualifying
    files, each behind the license, and the staging directory is gone. *)

Section TopLevel.
Variable rt : runtime.
Variable license : string.

Lemma put_entry_absent :
  forall x v es, assoc x es = None -> put_entry x v es = (es ++ [(x, v)])%list.
Proof.
  induction es as [|[y c] es IH]; intros Hnone; [reflexivity|].
  cbn in Hnone. cbn. destruct (String.eqb y x); [discriminate|].
  rewrite IH; [reflexivity|exact Hnone].
Qed.

Lemma put_entry_last :
  forall x v v' es,
    assoc x es = None ->
    put_entry x v' (es ++ [(x, v)])%list = (es ++ [(x, v')])%list.
Proof.
  induction es as [|[y c] es IH]; intros Hnone; cbn.
  - rewrite String.eqb_refl. reflexivity.
  - cbn in Hnone. destruct (String.eqb y x); [discriminate|].
    rewrite IH; [reflexivity|exact Hnone].
Qed.

Lemma assoc_last :
  forall x v es, assoc x es = None -> assoc x (es ++ [(x, v)])%list = Some v.
Proof.
  induction es as [|[y c] es IH]; intros Hnone; cbn.
  - rewrite String.eqb_refl. reflexivity.
  - cbn in Hnone. destruct (String.eqb y x); [discriminate|].
    apply IH. exact Hnone.
Qed.

Lemma assoc_other :
  forall x y v es,
    x <> y -> assoc x es = None -> assoc x (es ++ [(y, v)])%list = None.
Proof.
  induction es as [|[z c] es IH]; intros Hxy Hnone; cbn.
  - destruct (String.eqb y x) eqn:Heq; [|reflexivity].
    apply String.eqb_eq in Heq. congruence.
  - cbn in Hnone. destruct (String.eqb z x); [discriminate|].
    apply IH; assumption.
Qed.

Lemma remove_entry_absent :
  forall x (files : list (string * string)),
    ~ In x (map fst files) ->
    remove_entry x (map (fun f => (fst f, File (snd f))) files)
    = map (fun f => (fst f, File (snd f))) files.
Proof.
  induction files as [|[y c] files IH]; intros Hnotin; [reflexivity|].
  unfold remove_entry in *. cbn [map filter fst snd].
  destruct (String.eqb y x) eqn:Heq.
  - apply String.eqb_eq in Heq. subst y. destruct Hnotin. left. reflexivity.
  - cbn [negb]. rewrite IH; [reflexivity|].
    intros Hin. apply Hnotin. right. exact Hin.
Qed.

Lemma write_new :
  forall x data tmp acc,
    assoc x acc = None ->
    writeFileSync (Output, [x]) data (boot tmp (Some (Dir acc)))
    = (inr tt, boot tmp (Some (Dir (acc ++ [(x, File data)])%list))).
Proof.
  intros x data tmp acc Hnone.
  unfold writeFileSync, lookup, replace. cbn. rewrite Hnone.
  rewrite put_entry_absent by exact Hnone. reflexivity.
Qed.

Lemma write_again :
  forall x data data' tmp acc,
    assoc x acc = None ->
    writeFileSync (Output, [x]) data'
      (boot tmp (Some (Dir (acc ++ [(x, File data)])%list)))
    = (inr tt, boot tmp (Some (Dir (acc ++ [(x, File data')])%list))).
Proof.
  intros x data data' tmp acc Hnone.
  unfold writeFileSync, lookup, replace. cbn.
  rewrite assoc_last by exact Hnone.
  rewrite put_entry_last by exact Hnone. reflexivity.
Qed.

Lemma remove_first_file :
  forall x c files out,
    ~ In x (map fst files) ->
    remove tmpDir [x] (boot (Some (staged_files ((x, c) :: files))) out)
    = (inr tt, boot (Some (staged_files files)) out).
Proof.
  intros x c files out Hnotin.
  unfold remove, ignoreError, rmSync_recursive, lookup, replace, staged_files.
  cbn. rewrite String.eqb_refl. cbn.
  fold (remove_entry x (map (fun f => (fst f, File (snd f))) files)).
  rewrite remove_entry_absent by exact Hnotin. reflexivity.
Qed.

Lemma remove_staging_root :
  forall n out,
    remove tmpDir [] (boot (Some n) out) = (inr tt, boot None out).
Proof. reflexivity. Qed.

Lemma set_pending_boot :
  forall l tmp out,
    set_pending [] (set_pending l (boot tmp out)) = boot tmp out.
Proof. reflexivity. Qed.

Lemma opened_boot :
  forall k x data tmp acc,
    fr_name k = x -> fr_outDir k = outDir -> assoc x acc = None ->
    opened (set_pending [(Root, k)]
              (boot tmp (Some (Dir (acc ++ [(x, File data)])%list))))
    = set_pending [(Root, k)]
        (boot tmp (Some (Dir (acc ++ [(x, File EmptyString)])%list))).
Proof.
  intros k x data tmp acc Hname Hout Hnone.
  unfold opened, open_write. cbn [pending set_pending fold_left snd].
  rewrite Hname, Hout. change (join outDir x) with (Output, [x]).
  unfold writeFileSync, lookup, replace. cbn.
  rewrite assoc_last by exact Hnone.
  rewrite put_entry_last by exact Hnone. reflexivity.
Qed.

Lemma guarded_mkdir_noop :
  forall (b : bool) files out,
    (if negb b then mkdirSync_recursive tmpDir else ret tt)
      (boot (Some (staged_files files)) out)
    = (inr tt, boot (Some (staged_files files)) out).
Proof. intros [|] files out; reflexivity. Qed.

Lemma event_loop_quiet :
  forall ticks tmp out,
    event_loop rt ticks (boot tmp out) = Drained (boot tmp out).
Proof.
  intros ticks tmp out. rewrite event_loop_step. cbn.
  destruct (strict_rejections rt); reflexivity.
Qed.

(** The loop over files only, followed to the end of the event loop. *)
Lemma copy_loop :
  forall rec files acc b ticks,
    NoDup (map fst files) ->
    (forall f, In f files -> assoc (fst f) acc = None) ->
    (List.length files <= ticks)%nat ->
    (let '(p, s1) :=
       loop rec tmpDir outDir license
         (map (fun f => {| name := fst f; isDirectory := false |}) files)
         b (boot (Some (staged_files files)) (Some (Dir acc))) in
     settle (event_loop rt ticks) Root p s1)
    = Drained (boot None (Some (Dir (acc ++ licensed license files)%list))).
Proof.
  intros rec files. revert rec.
  induction files as [|[x c] files IH]; intros rec acc b ticks Hnodup Hfresh Hticks.
  - cbn [map loop]. rewrite remove_staging_root. cbn [settle].
    rewrite event_loop_quiet.
    unfold licensed. cbn [filter map]. rewrite app_nil_r. reflexivity.
  - cbn [map fst snd] in Hnodup. apply NoDup_cons_iff in Hnodup as [Hx Hnodup].
    assert (Hfresh_x : assoc x acc = None)
      by (apply (Hfresh (x, c)); left; reflexivity).
    cbn [map loop isDirectory name fst snd].
    unfold licensed. cbn [filter fst snd].
    destruct (qualifying x) eqn:Hq.
    + unfold bind. rewrite guarded_mkdir_noop.
      change (join outDir x) with (Output, [x]).
      rewrite write_new by exact Hfresh_x.
      cbn [settle pending boot app].
      destruct ticks as [|ticks]; [cbn in Hticks; lia|].
      erewrite event_loop_turn; [|reflexivity|reflexivity].
      rewrite (@opened_boot _ x license) by (reflexivity || exact Hfresh_x).
      rewrite set_pending_boot. unfold turn.
      cbn [fr_tmpDir fr_outDir fr_name fr_license fr_rest fr_outDirCreated].
      assert (Hcopy : processFile tmpDir outDir x license
                        (boot (Some (staged_files ((x, c) :: files)))
                           (Some (Dir (acc ++ [(x, File EmptyString)])%list)))
                      = Finish (boot (Some (staged_files ((x, c) :: files)))
                                  (Some (Dir (acc ++ [(x, File (license ++ c))])%list)))).
      { unfold processFile. change (join outDir x) with (Output, [x]).
        unfold read_stream, lookup, staged_files. cbn.
        rewrite String.eqb_refl.
        change (Dir ((x, File c) :: map (fun f => (fst f, File (snd f))) files))
          with (staged_files ((x, c) :: files)).
        rewrite write_again by exact Hfresh_x.
        rewrite write_again by exact Hfresh_x. reflexivity. }
      rewrite Hcopy. unfold resume.
      cbn [fr_tmpDir fr_outDir fr_name fr_license fr_rest fr_outDirCreated].
      rewrite remove_first_file by exact Hx.
      specialize (IH (processFiles (pred (stack_limit rt)))
                    (acc ++ [(x, File (license ++ c))])%list b ticks Hnodup).
      cbn [map fst snd]. fold (licensed license files).
      replace (acc ++ (x, File (license ++ c)) :: licensed license files)%list
        with ((acc ++ [(x, File (license ++ c))]) ++ licensed license files)%list
        by (rewrite <- app_assoc; reflexivity).
      rewrite <- IH.
      * reflexivity.
      * intros f Hf. apply assoc_other.
        -- intros Heq. apply Hx. rewrite <- Heq. apply in_map. exact Hf.
        -- apply Hfresh. right. exact Hf.
      * cbn in Hticks. lia.
    + rewrite remove_first_file by exact Hx.
      apply IH; [exact Hnodup| |cbn in Hticks; lia].
      intros f Hf. apply Hfresh. right. exact Hf.
Qed.

(** The walk of a staging directory that holds files only. *)
Lemma top_level_files_are_copied :
  forall files,
    stack_limit rt <> O ->
    NoDup (map fst files) ->
    normalize rt (S (List.length files)) outDir license
      (boot (Some (staged_files files)) (Some (Dir [])))
    = Idle (boot None (Some (Dir (licensed license files)))).
Proof.
  intros files Hstack Hnodup. unfold normalize, walk.
  destruct (stack_limit rt) as [|stack]; [contradiction|].
  cbn [processFiles].
  unfold readdirSync_withFileTypes, lookup, staged_files.
  cbn [tmpDir fst snd store staging boot get].
  rewrite map_map. cbn [fst snd].
  fold (staged_files files).
  rewrite (copy_loop (processFiles stack) files [] false);
    [reflexivity|exact Hnodup|reflexivity|lia].
Qed.

End TopLevel.

(** * [empty] and [remove] on any path *)

Import Shape.

Section PathFacts.

Lemma assoc_put_entry :
  forall x v es, assoc x (put_entry x v es) = Some v.
Proof.
  induction es as [|[y c] es IH]; cbn.
  - rewrite String.eqb_refl. reflexivity.
  - destruct (String.eqb y x) eqn:Hyx; cbn.
    + rewrite String.eqb_refl. reflexivity.
    + rewrite Hyx. exact IH.
Qed.

Lemma assoc_remove_entry :
  forall x es, assoc x (remove_entry x es) = None.
Proof.
  induction es as [|[y c] es IH]; [reflexivity|].
  unfold remove_entry in *. cbn [filter fst].
  destruct (String.eqb y x) eqn:Hyx; cbn [negb]; [exact IH|].
  cbn [assoc]. rewrite Hyx. exact IH.
Qed.

Lemma get_snoc :
  forall q x n,
    get (q ++ [x]) n
    = match get q n with
      | Some (Dir es) => assoc x es
      | _ => None
      end.
Proof.
  induction q as [|y q IH]; intros x n; cbn [app get].
  - destruct n as [d|es]; [reflexivity|].
    destruct (assoc x es); reflexivity.
  - destruct n as [d|es]; [reflexivity|].
    destruct (assoc y es) as [c|]; [apply IH|reflexivity].
Qed.

(** The entry [x] of the directory at [q] is set or deleted. *)
Lemma graft_snoc :
  forall q n es x v,
    get q n = Some (Dir es) ->
    exists n',
      match (q ++ [x])%list with
      | [] => None
      | h :: t => graft h t v n
      end = Some n'
      /\ get q n'
         = Some (Dir (match v with
                      | Some c => put_entry x c es
                      | None => remove_entry x es
                      end)).
Proof.
  induction q as [|y q IH]; intros n es x v Hget.
  - cbn in Hget. injection Hget as ->. cbn. eexists. split; reflexivity.
  - cbn [get] in Hget. destruct n as [d|es0]; [discriminate|].
    destruct (assoc y es0) as [c|] eqn:Hy; [|discriminate].
    destruct (IH c es x v Hget) as [c' [Hgraft Hget']].
    cbn [app].
    destruct (q ++ [x])%list as [|h t] eqn:Hq; [discriminate Hgraft|].
    cbn [graft]. rewrite Hy, Hgraft.
    eexists. split; [reflexivity|].
    cbn [get]. rewrite assoc_put_entry. exact Hget'.
Qed.

Lemma replace_entry :
  forall r q x v es s,
    lookup (r, q) s = Some (Dir es) ->
    exists s',
      replace (r, (q ++ [x])%list) v s = Some s'
      /\ lookup (r, q) s'
         = Some (Dir (match v with
                      | Some c => put_entry x c es
                      | None => remove_entry x es
                      end)).
Proof.
  intros r q x v es s. unfold lookup, replace. cbn [fst snd].
  destruct (store r s) as [n|] eqn:Hstore; [|discriminate].
  intros Hget. destruct (@graft_snoc q n es x v Hget) as [n' [Hgraft Hget']].
  destruct (q ++ [x])%list as [|h t]; [discriminate Hgraft|].
  rewrite Hgraft. eexists. split; [reflexivity|].
  rewrite store_set_store. exact Hget'.
Qed.

(** [remove] of an entry of a directory, whether the entry is there or
    not. *)
Lemma remove_entry_of :
  forall r q x es s,
    lookup (r, q) s = Some (Dir es) ->
    exists s',
      remove (join (r, q) x) [] s = (inr tt, s')
      /\ lookup (r, q) s' = Some (Dir (remove_entry x es)).
Proof.
  intros r q x es s Hdir.
  unfold remove, ignoreError, rmSync_recursive. cbn [fold_left].
  change (join (r, q) x) with (r, (q ++ [x])%list).
  destruct (lookup (r, (q ++ [x])%list) s) as [c|] eqn:Hentry.
  - destruct (@replace_entry r q x None es s Hdir) as [s' [-> Hdir']].
    exists s'. split; [reflexivity|exact Hdir'].
  - exists s. split; [reflexivity|].
    rewrite Hdir. unfold lookup in *. cbn [fst snd] in *.
    destruct (store r s) as [n|]; [|discriminate].
    rewrite get_snoc, Hdir in Hentry.
    rewrite (assoc_none_remove_entry _ _ Hentry). reflexivity.
Qed.

Lemma empty_loop_of :
  forall r q names es s,
    lookup (r, q) s = Some (Dir es) ->
    exists s',
      for_of names (fun entry => remove (join (r, q) entry) []) s = (inr tt, s')
      /\ lookup (r, q) s'
         = Some (Dir (fold_left (fun l x => remove_entry x l) names es)).
Proof.
  intros r q.
  induction names as [|x names IH]; intros es s Hdir; cbn [for_of fold_left].
  - exists s. split; [reflexivity|exact Hdir].
  - unfold bind.
    destruct (@remove_entry_of r q x es s Hdir) as [s1 [-> Hdir1]].
    apply IH. exact Hdir1.
Qed.

End PathFacts.

(** X1: [empty(path)] returns normally exactly when [path] is a directory,
    and then leaves it with no entry; otherwise it throws what listing the
    path throws, and nothing has changed. *)
Theorem empty_leaves_no_entry :
  forall (p : path) (s : state),
    match lookup p s with
    | Some (Dir _) =>
        exists s', empty p s = (inr tt, s') /\ lookup p s' = Some (Dir [])
    | _ => exists e, empty p s = (inl e, s)
    end.
Proof.
  intros [r q] s.
  destruct (lookup (r, q) s) as [[d|es]|] eqn:Hdir.
  - unfold empty, readdirSync, readdirSync_withFileTypes, bind.
    rewrite Hdir. eexists. reflexivity.
  - unfold empty, readdirSync, readdirSync_withFileTypes, bind, ret.
    rewrite Hdir.
    destruct (@empty_loop_of r q (map Fs.name
                 (map (fun e => {| Fs.name := fst e;
                                   isDirectory := match snd e with
                                                  | Dir _ => true
                                                  | File _ => false
                                                  end |}) es)) es s Hdir)
      as [s' [Hloop Hdir']].
    exists s'. split; [exact Hloop|].
    rewrite Hdir', remove_all_entries; [reflexivity|].
    intros e He. rewrite map_map. cbn. apply in_map. exact He.
  - unfold empty, readdirSync, readdirSync_withFileTypes, bind.
    rewrite Hdir. eexists. reflexivity.
Qed.

(** X2: [remove(...path)] never throws, and once it has returned nothing
    is left at the path. *)
Theorem remove_leaves_nothing :
  forall (p : path) (more : list string) (s : state),
    exists s',
      remove p more s = (inr tt, s')
      /\ lookup (fold_left join more p) s' = None.
Proof.
  intros p more s. unfold remove, ignoreError, rmSync_recursive.
  destruct (fold_left join more p) as [r l].
  destruct (lookup (r, l) s) as [c|] eqn:Hthere.
  2:{ exists s. split; [reflexivity|exact Hthere]. }
  induction l as [|h l IHl] using rev_ind.
  - unfold replace. cbn [fst snd]. eexists. split; [reflexivity|].
    unfold lookup. cbn [fst]. rewrite store_set_store. reflexivity.
  - clear IHl.
    assert (Hparent : exists es, lookup (r, l) s = Some (Dir es)).
    { unfold lookup in *. cbn [fst snd] in *.
      destruct (store r s) as [n|]; [|discriminate].
      rewrite get_snoc in Hthere.
      destruct (get l n) as [[d|es]|]; try discriminate. eexists. reflexivity. }
    destruct Hparent as [es Hparent].
    destruct (@replace_entry r l h None es s Hparent) as [s' [-> Hparent']].
    exists s'. split; [reflexivity|].
    unfold lookup in *. cbn [fst snd] in *.
    destruct (store r s') as [n'|]; [|reflexivity].
    rewrite get_snoc, Hparent'. apply assoc_remove_entry.
Qed.

(** * Names and the license text *)

Section StringFacts.

Lemma length_append :
  forall a b, String.length (a ++ b) = (String.length a + String.length b)%nat.
Proof.
  induction a as [|c a IH]; intros b; cbn; [reflexivity|].
  rewrite IH. reflexivity.
Qed.

Lemma substring_whole :
  forall s, substring 0 (String.length s) s = s.
Proof.
  induction s as [|c s IH]; cbn; [reflexivity|]. rewrite IH. reflexivity.
Qed.

Lemma substring_none :
  forall s, substring 0 0 s = EmptyString.
Proof. intros [|c s]; reflexivity. Qed.

Lemma substring_after :
  forall a b, substring (String.length a) (String.length b) (a ++ b) = b.
Proof.
  induction a as [|c a IH]; intros b; cbn.
  - apply substring_whole.
  - apply IH.
Qed.

Lemma split_at :
  forall s m,
    (m <= String.length s)%nat ->
    s = substring 0 m s ++ substring m (String.length s - m) s.
Proof.
  induction s as [|c s IH]; intros [|m] Hm; cbn in *.
  - reflexivity.
  - lia.
  - rewrite substring_whole. reflexivity.
  - rewrite <- IH by lia. reflexivity.
Qed.

Lemma ends_with_iff :
  forall suffix s,
    ends_with suffix s = true <-> exists stem, s = stem ++ suffix.
Proof.
  intros suffix s. unfold ends_with. split.
  - intros H. apply andb_true_iff in H as [Hlen Heq].
    apply Nat.leb_le in Hlen. apply String.eqb_eq in Heq.
    exists (substring 0 (String.length s - String.length suffix) s).
    assert (Hsplit : s = substring 0 (String.length s - String.length suffix) s
                         ++ substring (String.length s - String.length suffix)
                              (String.length s
                               - (String.length s - String.length suffix)) s)
      by (apply split_at; lia).
    replace (String.length s - (String.length s - String.length suffix))%nat
      with (String.length suffix) in Hsplit by lia.
    rewrite Heq in Hsplit. exact Hsplit.
  - intros [stem ->]. rewrite length_append.
    apply andb_true_iff. split; [apply Nat.leb_le; lia|].
    replace (String.length stem + String.length suffix - String.length suffix)%nat
      with (String.length stem) by lia.
    rewrite substring_after. apply String.eqb_refl.
Qed.

Lemma chomp_append_LF :
  forall text, chomp (text ++ LF) = text.
Proof.
  induction text as [|c text IH]; [reflexivity|].
  cbn [append chomp].
  destruct (text ++ LF) as [|c' rest] eqn:Hrest.
  - destruct text; discriminate Hrest.
  - rewrite IH. reflexivity.
Qed.

Lemma chomp_no_LF :
  forall text, (forall t, text <> t ++ LF) -> chomp text = text.
Proof.
  induction text as [|c text IH]; intros Hno; [reflexivity|].
  cbn [chomp]. destruct text as [|c' rest].
  - destruct (Ascii.eqb c (ascii_of_nat 10)) eqn:Hc; [|reflexivity].
    apply Ascii.eqb_eq in Hc. subst c.
    destruct (Hno EmptyString). reflexivity.
  - rewrite IH; [reflexivity|].
    intros t Ht. apply (Hno (String c t)). cbn. rewrite Ht. reflexivity.
Qed.

End StringFacts.

(** X4: a name qualifies exactly when it is some stem, possibly empty,
    followed by .js or by .d.ts. *)
Theorem qualifying_iff_suffix :
  forall (name : string),
    qualifying name = true
    <-> exists stem, name = stem ++ ".js" \/ name = stem ++ ".d.ts".
Proof.
  intros name. unfold qualifying. rewrite orb_true_iff, !ends_with_iff.
  split.
  - intros [[stem H] | [stem H]]; exists stem; [left|right]; exact H.
  - intros [stem [H | H]]; [left|right]; exists stem; exact H.
Qed.

(** X5: the license header drops exactly one final newline of LICENSE.txt:
    a text and the same text followed by a newline give the same header,
    the text between the two lines of asterisks. *)
Theorem license_drops_one_final_newline :
  forall (text : string),
    chomp (text ++ LF) = text
    /\ license_of (text ++ LF)
       = "/*! " ++ stars ++ LF ++ text ++ LF ++ stars ++ " */" ++ LF
    /\ ((forall t, text <> t ++ LF) ->
        license_of text = license_of (text ++ LF)).
Proof.
  intros text. unfold license_of. rewrite chomp_append_LF.
  repeat split. intros Hno. rewrite chomp_no_LF by exact Hno. reflexivity.
Qed.

(** * Builds that do not get to the walk, and builds of a flat output *)

Section MoreBuildFacts.
Variable rt : runtime.
Variable proj : project.

Lemma build_from_empty_staging :
  forall out,
    build rt proj (Some (Dir [])) out
    = match resolveOutDir (absolute_path proj) (tsconfig_json proj) with
      | inl e => Uncaught e (boot (Some (Dir [])) out)
      | inr _ =>
          match tsc proj (boot (Some (Dir [])) out) with
          | inl killed => killed
          | inr s2 =>
              match prepare proj s2 with
              | (inl e, s3) => Uncaught e s3
              | (inr license, s3) =>
                  normalize rt (ticks_for s3) outDir license s3
              end
          end
      end.
Proof.
  intros out. unfold build, main. rewrite prelude_cases. cbn [staging boot].
  destruct (resolveOutDir _ _); reflexivity.
Qed.

Lemma tsc_from_empty_staging :
  forall out status tree,
    npx_tsc proj (Some (Dir [])) = (status, tree) ->
    tsc proj (boot (Some (Dir [])) out)
    = match status with
      | Some c => if Z.eqb c 0 then inr (boot tree out)
                  else inl (kill c [] (boot tree out))
      | None => inr (boot tree out)
      end.
Proof.
  intros out status tree Hnpx. unfold tsc. cbn [staging boot].
  rewrite Hnpx. reflexivity.
Qed.

End MoreBuildFacts.

(** X6: where the configuration resolves, the compiler succeeds and leaves
    files only, with distinct names, and LICENSE.txt is there, the build
    ends with status 0, the staging directory is gone, and the output
    directory holds the qualifying files, each behind the license header,
    and nothing of what it held before. *)
Theorem build_copies_top_level_files :
  forall (rt : runtime) (proj : project) (tmp : option node)
         (es : entries_t) (files : list (string * string))
         (text resolved : string) (status : option Z),
    stack_limit rt <> O ->
    (forall c, tmp <> Some (File c)) ->
    resolveOutDir (absolute_path proj) (tsconfig_json proj) = inr resolved ->
    npx_tsc proj (Some (Dir [])) = (status, Some (staged_files files)) ->
    status = None \/ status = Some 0%Z ->
    LICENSE_txt proj = Some text ->
    NoDup (map fst files) ->
    build rt proj tmp (Some (Dir es))
    = Idle (boot None (Some (Dir (licensed (license_of text) files)))).
Proof.
  intros rt proj tmp es files text resolved status
         Hstack Htmp Hresolved Hnpx Hstatus Htext Hnodup.
  rewrite build_forgets_staging by exact Htmp.
  rewrite build_from_empty_staging, Hresolved.
  rewrite (tsc_from_empty_staging _ _ Hnpx).
  assert (Hcompiled :
            match status with
            | Some c => if Z.eqb c 0
                        then inr (boot (Some (staged_files files)) (Some (Dir es)))
                        else inl (kill c [] (boot (Some (staged_files files))
                                                (Some (Dir es))))
            | None => inr (boot (Some (staged_files files)) (Some (Dir es)))
            end
            = inr (boot (Some (staged_files files)) (Some (Dir es))))
    by (destruct Hstatus as [-> | ->]; reflexivity).
  rewrite Hcompiled.
  pose proof (prepare_cases proj
                (boot (Some (staged_files files)) (Some (Dir es)))) as Hprepare.
  rewrite Htext in Hprepare. cbn [output boot] in Hprepare. rewrite Hprepare.
  cbn [set_store boot staging output console pending unhandled].
  change {| staging := Some (staged_files files); output := Some (Dir []);
            console := []; pending := []; unhandled := [] |}
    with (boot (Some (staged_files files)) (Some (Dir []))).
  unfold ticks_for, staged_files. cbn [staging boot]. rewrite length_map.
  fold (staged_files files).
  apply top_level_files_are_copied; assumption.
Qed.

Lemma build_copies_top_level_files_witness :
  build (node_js 8 true)
    (sample_project (Some 0%Z) (Some without_subdirectory))
    (Some (Dir [("stale.js", File "left over")]))
    (Some (Dir [("old.js", File "from an earlier build")]))
  = Idle (boot None
            (Some (Dir [("utils.js", File (license_of MIT ++ utils_js))]))).
Proof.
  refine (@build_copies_top_level_files (node_js 8 true)
            (sample_project (Some 0%Z) (Some without_subdirectory))
            (Some (Dir [("stale.js", File "left over")]))
            [("old.js", File "from an earlier build")]
            [("utils.js", utils_js); ("utils.js.map", "{}")]
            MIT "/project/lib" (Some 0%Z)
            _ _ _ _ _ _ _).
  - discriminate.
  - discriminate.
  - reflexivity.
  - reflexivity.
  - right. reflexivity.
  - reflexivity.
  - repeat constructor; cbn; intuition discriminate.
Defined.

(** X9: a build that ends before the walk, because the configuration is
    rejected, the compiler ends with a status other than zero or
    LICENSE.txt is missing, leaves the output directory as it found it. *)
Theorem failed_build_keeps_output :
  forall (rt : runtime) (proj : project) (tmp out : option node),
    (exists e, resolveOutDir (absolute_path proj) (tsconfig_json proj) = inl e)
    \/ (exists c tree,
          npx_tsc proj (Some (Dir [])) = (Some c, tree) /\ c <> 0%Z)
    \/ LICENSE_txt proj = None ->
    output_of (build rt proj tmp out) = out.
Proof.
  intros rt proj tmp out Hearly.
  destruct tmp as [[d|es]|];
    [rewrite build_file_staging; reflexivity| |];
    rewrite build_forgets_staging by discriminate;
    rewrite build_from_empty_staging.
  all: destruct Hearly as [[e ->] | [[c [tree [Hnpx Hc]]] | Htext]];
    [reflexivity| |].
  all: destruct (resolveOutDir _ _) as [e|resolved]; [reflexivity|].
  all: try (rewrite (tsc_from_empty_staging _ _ Hnpx);
            destruct (Z.eqb c 0) eqn:Hzero;
            [apply Z.eqb_eq in Hzero; contradiction|];
            destruct (kill_cases c [] (boot tree out)) as [s [-> [_ [Hout _]]]];
            exact Hout).
  all: destruct (npx_tsc proj (Some (Dir []))) as [status tree] eqn:Hnpx;
    rewrite (tsc_from_empty_staging _ _ Hnpx);
    (destruct status as [c|]; [destruct (Z.eqb c 0)|]);
    try (destruct (kill_cases c [] (boot tree out)) as [s [-> [_ [Hout _]]]];
         exact Hout);
    pose proof (prepare_cases proj (boot tree out)) as Hprepare;
    rewrite Htext in Hprepare; rewrite Hprepare; reflexivity.
Qed.

Lemma failed_build_keeps_output_witness :
  output_of (build (node_js 8 true) (sample_project (Some 2%Z) (Some compiled))
               None (Some (Dir [("old.js", File "from an earlier build")])))
  = Some (Dir [("old.js", File "from an earlier build")]).
Proof.
  apply (failed_build_keeps_output (node_js 8 true)
           (sample_project (Some 2%Z) (Some compiled))).
  right. left. exists 2%Z, (Some compiled). split; [reflexivity|discriminate].
Defined.

(** X10: the outcome of a build does not depend on what the staging
    directory held, nor on whether it existed. *)
Theorem build_forgets_what_staging_held :
  forall (rt : runtime) (proj : project) (es es' : entries_t)
         (out : option node),
    build rt proj (Some (Dir es)) out = build rt proj (Some (Dir es')) out
    /\ build rt proj None out = build rt proj (Some (Dir es)) out.
Proof.
  intros rt proj es es' out.
  rewrite (@build_forgets_staging rt proj (Some (Dir es))) by discriminate.
  rewrite (@build_forgets_staging rt proj (Some (Dir es'))) by discriminate.
  rewrite (@build_forgets_staging rt proj None) by discriminate.
  split; reflexivity.
Qed.

(** * What a walk leaves in the output directory, for every staging tree *)

Section NamesFacts.
Variable rt : runtime.
Variable P : string -> Prop.

Lemma names_same_output :
  forall s s', same_output s s' -> names_in P s -> names_in P s'.
Proof.
  intros s s' [Hout _] Hnames es x c Hes. rewrite Hout in Hes.
  apply (Hnames es x c Hes).
Qed.

Lemma in_put_entry :
  forall x v y c es,
    In (y, c) (put_entry x v es) -> y = x \/ In (y, c) es.
Proof.
  induction es as [|[z d] es IH]; cbn.
  - intros [H | []]. left. congruence.
  - destruct (String.eqb z x); cbn.
    + intros [H | H]; [left; congruence|right; right; exact H].
    + intros [H | H]; [right; left; exact H|].
      destruct (IH H) as [Hy | Hin]; [left; exact Hy|right; right; exact Hin].
Qed.

Lemma writeFileSync_top_names :
  forall x data s r s',
    flat s -> names_in P s -> P x ->
    writeFileSync (Output, [x]) data s = (r, s') -> names_in P s'.
Proof.
  intros x data s r s' [es [Hout Hfiles]] Hnames Hx.
  unfold writeFileSync, lookup, replace. cbn [fst snd store]. rewrite Hout.
  cbn [get graft].
  assert (Hwritten : names_in P
            (set_store Output (Some (Dir (put_entry x (File data) es))) s)).
  { intros es' y c Hes' Hin. cbn in Hes'. injection Hes' as <-.
    destruct (@in_put_entry _ _ _ _ _ Hin) as [-> | Hin']; [exact Hx|].
    apply (Hnames es y c Hout Hin'). }
  destruct (assoc x es) as [c|] eqn:Hassoc.
  - destruct (assoc_all_files _ _ Hfiles Hassoc) as [d ->].
    intros H. injection H as _ <-. exact Hwritten.
  - intros H. injection H as _ <-. exact Hwritten.
Qed.

Lemma processFile_names :
  forall tmpD x lic s,
    flat s -> names_in P s -> P x ->
    match processFile tmpD outDir x lic s with
    | Finish s' | WriteStreamError _ s' | ReadStreamError _ s' => names_in P s'
    end.
Proof.
  intros tmpD x lic s Hflat Hnames Hx. unfold processFile.
  change (join outDir x) with (Output, [x]).
  destruct (read_stream (join tmpD x) s) as [e|data]; [exact Hnames|].
  destruct (@writeFileSync_top x lic s Hflat) as [s1 [Hwrite [Hflat1 _]]].
  pose proof (@writeFileSync_top_names x lic s _ s1 Hflat Hnames Hx Hwrite)
    as Hnames1.
  rewrite Hwrite.
  destruct (@writeFileSync_top x (lic ++ data) s1 Hflat1) as [s2 [Hwrite2 _]].
  rewrite Hwrite2.
  apply (@writeFileSync_top_names x (lic ++ data) s1 _ s2 Hflat1 Hnames1 Hx
           Hwrite2).
Qed.

Lemma entries_in_tail :
  forall e entries, entries_in P (e :: entries) -> entries_in P entries.
Proof.
  intros e entries H e' He'. apply H. right. exact He'.
Qed.

(** The walk the script starts writes no name but those of the files its
    listing lets it copy. *)
Lemma loop_root_names :
  forall stack entries tmpD lic b s p s',
    flat s -> names_in P s -> entries_in P entries -> fst tmpD = Staging ->
    loop (processFiles stack) tmpD outDir lic entries b s = (p, s') ->
    names_in P s'
    /\ (forall k, p = Awaiting k ->
                  P (fr_name k) /\ entries_in P (fr_rest k)).
Proof.
  intros stack.
  induction entries as [|entry rest IH];
    intros tmpD lic b s p s' Hflat Hnames Hentries HtmpD; cbn [loop].
  - destruct (remove tmpD [] s) as [r s1] eqn:Hrm.
    intros H. injection H as <- <-.
    split; [|discriminate].
    eapply names_same_output; [|exact Hnames].
    eapply remove_staging; eassumption.
  - pose proof (entries_in_tail Hentries) as Hrest.
    destruct (isDirectory entry) eqn:Hdir.
    + destruct (processFiles stack (join tmpD (Fs.name entry))
                  (join outDir (Fs.name entry)) lic s) as [p1 s1] eqn:Hcall.
      apply processFiles_below in Hcall as [Hp1 Hs1];
        [|exact Hflat|exact HtmpD].
      pose proof (same_output_trans Hs1 (dropped_same_output s1 Hp1)) as Hs2.
      apply IH; [eapply flat_same_output; eassumption
                |eapply names_same_output; eassumption
                |exact Hrest|exact HtmpD].
    + destruct (qualifying (Fs.name entry)) eqn:Hq.
      * unfold bind.
        destruct ((if negb b then mkdirSync_recursive tmpD else ret tt) s)
          as [[e|u] s1] eqn:Hmk;
          pose proof (guarded_mkdir_staging b tmpD s HtmpD Hmk) as Hs1.
        -- intros H. injection H as <- <-.
           split; [eapply names_same_output; eassumption|discriminate].
        -- change (join outDir (Fs.name entry)) with (Output, [Fs.name entry]).
           destruct (writeFileSync (Output, [Fs.name entry]) lic s1)
             as [[e|u'] s2] eqn:Hwrite;
             assert (Hnames2 : names_in P s2)
               by (eapply (@writeFileSync_top_names (Fs.name entry) lic s1 _ s2);
                   [eapply flat_same_output; eassumption
                   |eapply names_same_output; eassumption
                   |apply Hentries; [left; reflexivity|exact Hdir|exact Hq]
                   |exact Hwrite]).
           ++ intros H. injection H as <- <-. split; [exact Hnames2|discriminate].
           ++ intros H. injection H as <- <-. split; [exact Hnames2|].
              intros k Hk. injection Hk as <-. cbn.
              split; [apply Hentries; [left; reflexivity|exact Hdir|exact Hq]
                     |exact Hrest].
      * destruct (remove tmpD [Fs.name entry] s) as [r s1] eqn:Hrm.
        pose proof (remove_staging _ _ _ HtmpD Hrm) as Hs1.
        apply IH; [eapply flat_same_output; eassumption
                  |eapply names_same_output; eassumption
                  |exact Hrest|exact HtmpD].
Qed.

Lemma remove_tmpDir_staging :
  forall s r s', remove tmpDir [] s = (r, s') -> staging s' = None.
Proof.
  intros s r s'. unfold remove, ignoreError, rmSync_recursive, lookup, replace.
  cbn [fold_left tmpDir fst snd store].
  destruct (staging s) as [n|] eqn:Hstaging; cbn [get];
    intros H; injection H as _ <-; [reflexivity|exact Hstaging].
Qed.

(** When the loop over the staging directory itself comes to its end the
    staging directory is gone; when it suspends, it is the call for the
    staging directory that waits. *)
Lemma loop_root_staging :
  forall rec entries lic b s p s',
    loop rec tmpDir outDir lic entries b s = (p, s') ->
    (p = Fulfilled -> staging s' = None)
    /\ (forall k, p = Awaiting k -> fr_tmpDir k = tmpDir).
Proof.
  intros rec.
  induction entries as [|entry rest IH]; intros lic b s p s'; cbn [loop].
  - destruct (remove tmpDir [] s) as [r s1] eqn:Hrm.
    intros H. injection H as <- <-.
    split; [intros _; eapply remove_tmpDir_staging; eassumption|discriminate].
  - destruct (isDirectory entry).
    + destruct (rec _ _ lic s) as [p1 s1]. apply IH.
    + destruct (qualifying (Fs.name entry)).
      * destruct (((if negb b then mkdirSync_recursive tmpDir else ret tt);;
                   writeFileSync (join outDir (Fs.name entry)) lic)%js s)
          as [[e|u] s1]; intros H; injection H as <- <-.
        -- split; discriminate.
        -- split; [discriminate|]. intros k Hk. injection Hk as <-. reflexivity.
      * destruct (remove tmpDir [Fs.name entry] s) as [r s1]. apply IH.
Qed.

(** Opening the stream of the script's walk keeps what holds between two
    turns. *)
Lemma opened_root_post :
  forall (ticks : nat) s,
    flat s -> names_in P s ->
    (pending s = [] /\ staging s = None)
    \/ (exists k, pending s = [(Root, k)]
                  /\ fr_outDir k = outDir /\ fr_tmpDir k = tmpDir
                  /\ P (fr_name k) /\ entries_in P (fr_rest k)
                  /\ (List.length (fr_rest k) < ticks)%nat) ->
    flat (opened s) /\ names_in P (opened s)
    /\ ((pending (opened s) = [] /\ staging (opened s) = None)
        \/ (exists k, pending (opened s) = [(Root, k)]
                      /\ fr_outDir k = outDir /\ fr_tmpDir k = tmpDir
                      /\ P (fr_name k) /\ entries_in P (fr_rest k)
                      /\ (List.length (fr_rest k) < ticks)%nat)).
Proof.
  intros ticks s Hflat Hnames
    [[Hnone Hgone] | [k [Hone [Hout [Htmp [Hname [Hrest Hlen]]]]]]].
  - rewrite (@opened_none s Hnone).
    split; [exact Hflat|]. split; [exact Hnames|]. left. split; assumption.
  - rewrite (@opened_one Root k s Hone), Hout.
    destruct (@open_write_top (fr_name k) s Hflat)
      as [Hwrite [Hflat' Hstaging]].
    split; [exact Hflat'|].
    split; [exact (@writeFileSync_top_names (fr_name k) EmptyString s _ _
                     Hflat Hnames Hname Hwrite)|].
    right. exists k.
    destruct (open_write_keeps outDir (fr_name k) s) as [Hpending _].
    rewrite Hpending. repeat split; assumption.
Qed.

(** The event loop, started with a flat output directory and at most the
    script's walk waiting, ends; the output directory is still flat and
    holds only names that satisfy [P]; and if it drains, the staging
    directory is gone. *)
Lemma event_loop_root_post :
  forall ticks s,
    flat s -> names_in P s ->
    (pending s = [] /\ staging s = None)
    \/ (exists k, pending s = [(Root, k)]
                  /\ fr_outDir k = outDir /\ fr_tmpDir k = tmpDir
                  /\ P (fr_name k) /\ entries_in P (fr_rest k)
                  /\ (List.length (fr_rest k) < ticks)%nat) ->
    match event_loop rt ticks s with
    | Drained s' => flat s' /\ names_in P s' /\ staging s' = None
    | RootRejected _ s' | Crashed _ s' => flat s' /\ names_in P s'
    | Stalled => False
    end.
Proof.
  induction ticks as [|ticks IH]; intros s Hflat Hnames Hroot;
    rewrite event_loop_step;
    destruct (opened_root_post Hflat Hnames Hroot)
      as [Hflat0 [Hnames0 Hroot0]];
    clear Hflat Hnames Hroot; revert Hflat0 Hnames0 Hroot0;
    generalize (opened s); clear s; intros s Hflat Hnames Hroot.
  - destruct Hroot as [[Hnone Hgone] | [k [_ [_ [_ [_ [_ Hlen]]]]]]];
      [|inversion Hlen].
    rewrite Hnone.
    destruct (strict_rejections rt), (unhandled s); repeat split; assumption.
  - assert (Hturn :
              match
                match pending s with
                | [] => Drained s
                | (o, k) :: others =>
                    turn rt (event_loop rt ticks) o k (set_pending others s)
                end
              with
              | Drained s' => flat s' /\ names_in P s' /\ staging s' = None
              | RootRejected _ s' | Crashed _ s' => flat s' /\ names_in P s'
              | Stalled => False
              end).
    { destruct Hroot as [[-> Hgone] | [k [-> [Hout [Htmp [Hname [Hrest Hlen]]]]]]];
        [repeat split; assumption|].
      unfold turn. rewrite Hout, Htmp.
      pose proof (set_pending_flat [] Hflat) as Hflat0.
      assert (Hnames0 : names_in P (set_pending [] s)) by exact Hnames.
      pose proof (processFile_root tmpDir (fr_name k) (fr_license k) Hflat0)
        as Hcopy.
      pose proof (@processFile_names tmpDir (fr_name k) (fr_license k) _
                    Hflat0 Hnames0 Hname) as Hcopied.
      destruct (processFile tmpDir outDir (fr_name k) (fr_license k)
                  (set_pending [] s)) as [s1|e s1|e s1];
        destruct Hcopy as [Hflat1 Hpending1]; cbn [settle];
        [|split; assumption|split; assumption].
      cbn in Hpending1. unfold resume. rewrite Hout, Htmp.
      destruct (remove tmpDir [fr_name k] s1) as [r s1'] eqn:Hrm.
      pose proof (@remove_staging tmpDir [fr_name k] s1 _ _ eq_refl Hrm) as Hs1'.
      destruct (loop (processFiles (pred (stack_limit rt))) tmpDir outDir
                  (fr_license k) (fr_rest k) (fr_outDirCreated k) s1')
        as [p s2] eqn:Hloop.
      pose proof (flat_same_output Hflat1 Hs1') as Hflat1'.
      pose proof (names_same_output Hs1' Hcopied) as Hnames1'.
      destruct (@loop_root _ _ _ _ _ _ _ _ Hflat1'
                  (eq_refl : fst tmpDir = Staging) Hloop) as [Hflat2 [Hpending2 Hk]].
      destruct (@loop_root_names _ _ _ _ _ _ _ _ Hflat1' Hnames1' Hrest
                  (eq_refl : fst tmpDir = Staging) Hloop) as [Hnames2 Hk'].
      destruct (@loop_root_staging _ _ _ _ _ _ _ Hloop) as [Hgone Hktmp].
      assert (Hnone2 : pending s2 = []).
      { rewrite Hpending2. destruct Hs1' as [_ ->]. exact Hpending1. }
      destruct p as [ |e|k']; cbn [settle].
      - apply IH; [exact Hflat2|exact Hnames2|].
        left. split; [exact Hnone2|apply Hgone; reflexivity].
      - split; assumption.
      - apply IH; [apply set_pending_flat; exact Hflat2|exact Hnames2|].
        right. exists k'. rewrite Hnone2.
        destruct (Hk k' eq_refl) as [Ho [_ Hlen']].
        destruct (Hk' k' eq_refl) as [Hname' Hrest'].
        repeat split; [exact Ho|apply Hktmp; reflexivity|exact Hname'
                      |exact Hrest'|lia]. }
    destruct (strict_rejections rt), (unhandled s); try exact Hturn;
      split; assumption.
Qed.

(** The listing of a directory lets the walk copy its qualifying files
    only. *)
Lemma listing_entries_in :
  forall es,
    (forall x, top_level_file es x -> P x) ->
    entries_in P
      (map (fun e => {| Fs.name := fst e;
                        isDirectory := match snd e with
                                       | Dir _ => true
                                       | File _ => false
                                       end |}) es).
Proof.
  intros es Htop e He Hfile Hq.
  apply in_map_iff in He as [[x c] [<- Hin]]. cbn in *.
  apply Htop. split; [exact Hq|].
  destruct c as [d|sub]; [exists d; exact Hin|discriminate].
Qed.

(** The walk as the script starts it, over an output directory that holds
    files only. *)
Lemma walk_post :
  forall lic tmp es,
    all_files es = true ->
    (forall x c, In (x, c) es -> P x) ->
    (forall es0 x, tmp = Some (Dir es0) -> top_level_file es0 x -> P x) ->
    match walk rt (ticks_for (boot tmp (Some (Dir es)))) outDir lic
            (boot tmp (Some (Dir es))) with
    | Drained s' => flat s' /\ names_in P s' /\ staging s' = None
    | RootRejected _ s' | Crashed _ s' => flat s' /\ names_in P s'
    | Stalled => False
    end.
Proof.
  intros lic tmp es Hfiles Hold Htop.
  assert (Hflat : flat (boot tmp (Some (Dir es))))
    by (exists es; split; [reflexivity|exact Hfiles]).
  assert (Hnames : names_in P (boot tmp (Some (Dir es)))).
  { intros es' x c Hes' Hin. cbn in Hes'. injection Hes' as <-.
    apply (Hold x c Hin). }
  unfold walk.
  destruct (stack_limit rt) as [|stack]; cbn [processFiles settle];
    [split; assumption|].
  unfold readdirSync_withFileTypes, lookup, ticks_for.
  cbn [tmpDir fst snd store staging boot].
  destruct tmp as [[c|es0]|]; cbn [get settle]; try (split; assumption).
  destruct (loop (processFiles stack) tmpDir outDir lic
              (map (fun e => {| Fs.name := fst e;
                                isDirectory := match snd e with
                                               | Dir _ => true
                                               | File _ => false
                                               end |}) es0) false
              (boot (Some (Dir es0)) (Some (Dir es))))
    as [p s1] eqn:Hloop.
  pose proof (@listing_entries_in es0 (fun x => Htop es0 x eq_refl))
    as Hentries.
  destruct (@loop_root _ _ _ _ _ _ _ _ Hflat (eq_refl : fst tmpDir = Staging)
              Hloop)
    as [Hflat1 [Hpending1 Hk]].
  destruct (@loop_root_names _ _ _ _ _ _ _ _ Hflat Hnames Hentries
              (eq_refl : fst tmpDir = Staging) Hloop) as [Hnames1 Hk'].
  destruct (@loop_root_staging _ _ _ _ _ _ _ Hloop) as [Hgone Hktmp].
  cbn [pending boot] in Hpending1.
  destruct p as [ |e|k]; cbn [settle].
  - apply event_loop_root_post; [exact Hflat1|exact Hnames1|].
    left. split; [exact Hpending1|apply Hgone; reflexivity].
  - split; assumption.
  - apply event_loop_root_post;
      [apply set_pending_flat; exact Hflat1|exact Hnames1|].
    right. exists k. rewrite Hpending1.
    destruct (Hk k eq_refl) as [Ho [_ Hlen]].
    destruct (Hk' k eq_refl) as [Hname Hrest].
    rewrite length_map in Hlen.
    repeat split; [exact Ho|apply Hktmp; reflexivity|exact Hname|exact Hrest|lia].
Qed.

End NamesFacts.

(** X7: [processFiles] as the script calls it, over an output directory
    that holds files only: however the run ends, the output directory
    still holds files only (no directory is ever created in it), and every
    name in it was there before or is the name of a file at the top of the
    staging directory that ends in [.js] or [.d.ts].  Nothing from a
    subdirectory of the staging directory, and no other file, gets there. *)
Theorem walk_writes_top_level_files_only :
  forall rt license es0 es,
    all_files es = true ->
    exists s' es',
      final (normalize rt (ticks_for (boot (Some (Dir es0)) (Some (Dir es))))
               outDir license (boot (Some (Dir es0)) (Some (Dir es))))
      = Some s'
      /\ output s' = Some (Dir es')
      /\ all_files es' = true
      /\ forall x c, In (x, c) es' ->
                     (exists c0, In (x, c0) es) \/ top_level_file es0 x.
Proof.
  intros rt license es0 es Hfiles.
  pose proof (@walk_post rt
                (fun x => (exists c0, In (x, c0) es) \/ top_level_file es0 x)
                license (Some (Dir es0)) es Hfiles) as Hwalk.
  assert (Hend :
            forall s', flat s' ->
              names_in (fun x => (exists c0, In (x, c0) es)
                                 \/ top_level_file es0 x) s' ->
              exists es', output s' = Some (Dir es') /\ all_files es' = true
                          /\ forall x c, In (x, c) es' ->
                               (exists c0, In (x, c0) es)
                               \/ top_level_file es0 x).
  { intros s' [es' [Hout Hfiles']] Hnames. exists es'.
    split; [exact Hout|]. split; [exact Hfiles'|].
    intros x c Hin. apply (Hnames es' x c Hout Hin). }
  unfold normalize.
  destruct (walk rt (ticks_for (boot (Some (Dir es0)) (Some (Dir es)))) outDir
              license (boot (Some (Dir es0)) (Some (Dir es))))
    as [s1|e s1|e s1| ].
  - destruct Hwalk as [Hflat [Hnames _]];
      [intros x c Hin; left; exists c; exact Hin
      |intros es1 x H; injection H as <-; intros Hx; right; exact Hx|].
    exists s1. destruct (Hend s1 Hflat Hnames) as [es' H]. exists es'.
    split; [reflexivity|exact H].
  - destruct Hwalk as [Hflat Hnames];
      [intros x c Hin; left; exists c; exact Hin
      |intros es1 x H; injection H as <-; intros Hx; right; exact Hx|].
    unfold kill.
    destruct (remove tmpDir [] (console_error [e] s1)) as [r s2] eqn:Hrm.
    pose proof (@remove_staging tmpDir [] _ _ _ eq_refl Hrm) as Hsame.
    exists s2.
    destruct (Hend s2) as [es' H];
      [eapply flat_same_output; [|exact Hsame];
       destruct Hflat as [es1 Hes1]; exists es1; exact Hes1
      |eapply names_same_output; [exact Hsame|exact Hnames]|].
    exists es'. split; [reflexivity|exact H].
  - destruct Hwalk as [Hflat Hnames];
      [intros x c Hin; left; exists c; exact Hin
      |intros es1 x H; injection H as <-; intros Hx; right; exact Hx|].
    exists s1. destruct (Hend s1 Hflat Hnames) as [es' H]. exists es'.
    split; [reflexivity|exact H].
  - exfalso. apply Hwalk;
      [intros x c Hin; left; exists c; exact Hin
      |intros es1 x H; injection H as <-; intros Hx; right; exact Hx].
Qed.

Lemma walk_writes_top_level_files_only_witness :
  exists s' es',
    final (normalize (node_js 8 true)
             (ticks_for
                (boot (Some (Dir [("react", Dir [("index.js", File react_js)]);
                                  ("utils.js", File utils_js)]))
                   (Some (Dir [("old.js", File "kept")]))))
             outDir (license_of MIT)
             (boot (Some (Dir [("react", Dir [("index.js", File react_js)]);
                               ("utils.js", File utils_js)]))
                (Some (Dir [("old.js", File "kept")]))))
    = Some s'
    /\ output s' = Some (Dir es')
    /\ all_files es' = true
    /\ forall x c, In (x, c) es' ->
                   (exists c0, In (x, c0) [("old.js", File "kept")])
                   \/ top_level_file
                        [("react", Dir [("index.js", File react_js)]);
                         ("utils.js", File utils_js)] x.
Proof.
  apply (@walk_writes_top_level_files_only (node_js 8 true) (license_of MIT)
           [("react", Dir [("index.js", File react_js)]);
            ("utils.js", File utils_js)]
           [("old.js", File "kept")]).
  reflexivity.
Defined.

(** X8: A walk over an output directory that holds files only always
    comes to an end, and whenever the process ends on its own or through
    [kill] the staging directory has been removed; it can be left behind
    only when an exception reaches the runtime. *)
Theorem staging_is_removed_unless_uncaught :
  forall rt license tmp es,
    all_files es = true ->
    match normalize rt (ticks_for (boot tmp (Some (Dir es)))) outDir license
            (boot tmp (Some (Dir es))) with
    | Idle s' | Exit _ s' => staging s' = None
    | Uncaught _ _ => True
    | OutOfTicks => False
    end.
Proof.
  intros rt license tmp es Hfiles.
  pose proof (@walk_post rt (fun _ => True) license tmp es Hfiles
                (fun _ _ _ => I) (fun _ _ _ _ => I)) as Hwalk.
  unfold normalize.
  destruct (walk rt (ticks_for (boot tmp (Some (Dir es)))) outDir license
              (boot tmp (Some (Dir es)))) as [s1|e s1|e s1| ].
  - destruct Hwalk as [_ [_ Hgone]]. exact Hgone.
  - unfold kill.
    destruct (remove tmpDir [] (console_error [e] s1)) as [r s2] eqn:Hrm.
    eapply remove_tmpDir_staging. exact Hrm.
  - exact I.
  - exact Hwalk.
Qed.

Lemma staging_is_removed_unless_uncaught_witness :
  (exists s',
      normalize (node_js 8 true)
        (ticks_for (boot (Some without_subdirectory)
                      (Some (Dir [("old.js", File "kept")]))))
        outDir (license_of MIT)
        (boot (Some without_subdirectory)
           (Some (Dir [("old.js", File "kept")])))
      = Idle s'
      /\ staging s' = None)
  /\ (exists s',
         normalize (node_js 8 true)
           (ticks_for (boot (Some (File "not a directory")) (Some (Dir []))))
           outDir (license_of MIT)
           (boot (Some (File "not a directory")) (Some (Dir [])))
         = Exit 1 s'
         /\ staging s' = None).
Proof.
  split.
  - generalize (@staging_is_removed_unless_uncaught (node_js 8 true)
                  (license_of MIT) (Some without_subdirectory)
                  [("old.js", File "kept")] eq_refl).
    vm_compute. intros Hgone. eexists. split; [reflexivity|exact Hgone].
  - generalize (@staging_is_removed_unless_uncaught (node_js 8 true)
                  (license_of MIT) (Some (File "not a directory"))
                  [] eq_refl).
    vm_compute. intros Hgone. eexists. split; [reflexivity|exact Hgone].
Defined.

(** * The functions [browserFn], [browserFnOrThrow] and [browserFnOrWarn] return *)

(** X11: A call of the function [browserFnOrWarn(fn, fallbackFn)] returns:
    with [window] defined it is the call of what [browserFn(fn, fallbackFn)]
    returns; without it, an EnvironmentError for [fn] is logged first, then
    the fallback of [browserFn] runs with the same arguments, what it throws
    is thrown, and what it returns is dropped: the call returns
    [undefined]. *)
Theorem browserFnOrWarn_drops_fallback_result :
  forall (Window T E World : Type) (undefined : T)
         (console_error :
            Callbacks.EnvironmentError Window T E World -> World -> World)
         (window : option Window)
         (f : Callbacks.AnyBrowserFn Window T E World)
         (fallbackFn : option (Callbacks.AnyFn Window T E World))
         (args : list T) (w : World),
    Callbacks.invoke
      (Callbacks.browserFnOrWarn undefined console_error window f fallbackFn)
      args w
    = match window with
      | Some _ =>
          Callbacks.invoke (Callbacks.browserFn undefined window f fallbackFn)
            args w
      | None =>
          match
            Callbacks.invoke (Callbacks.browserFn undefined window f fallbackFn)
              args (console_error (Callbacks.new_EnvironmentError f) w)
          with
          | (inl e, w') => (inl e, w')
          | (inr _, w') => (inr undefined, w')
          end
      end.
Proof.
  intros Window T E World undefined console_error window f fallbackFn args w.
  unfold Callbacks.browserFnOrWarn, Callbacks.browserFn.
  destruct window as [win|]; reflexivity.
Qed.

(** X12: A call of the function [browserFnOrThrow(fn)] returns throws an
    error of the library's own exactly when [window] is undefined; the
    error is then [new EnvironmentError(fn)], whatever the arguments, and
    nothing else has happened.  With [window] defined the three builders
    return the same function, [fn] bound to [window], and a call of it is
    [fn(window, ...args)]. *)
Theorem browserFnOrThrow_throws_iff_no_window :
  forall (Window T E World : Type) (undefined : T)
         (console_error :
            Callbacks.EnvironmentError Window T E World -> World -> World)
         (window : option Window)
         (f : Callbacks.AnyBrowserFn Window T E World)
         (fallbackFn : option (Callbacks.AnyFn Window T E World))
         (args : list T) (w : World),
    ((exists error,
         fst (Callbacks.invoke (Callbacks.browserFnOrThrow window f) args w)
         = inl (Callbacks.Own error))
     <-> window = None)
    /\ match window with
       | Some win =>
           Callbacks.browserFnOrThrow window f
           = Callbacks.browserFn undefined window f fallbackFn
           /\ Callbacks.browserFnOrThrow window f
              = Callbacks.browserFnOrWarn undefined console_error window f
                  fallbackFn
           /\ Callbacks.name (Callbacks.browserFnOrThrow window f)
              = ("bound " ++ Callbacks.fn_name f)%string
           /\ Callbacks.invoke (Callbacks.browserFnOrThrow window f) args w
              = Callbacks.passing (Callbacks.apply f win args w)
       | None =>
           Callbacks.invoke (Callbacks.browserFnOrThrow window f) args w
           = (inl (Callbacks.Own (Callbacks.new_EnvironmentError f)), w)
       end.
Proof.
  intros Window T E World undefined console_error window f fallbackFn args w.
  unfold Callbacks.browserFnOrThrow, Callbacks.browserFn,
    Callbacks.browserFnOrWarn.
  destruct window as [win|]; (split; [split|]).
  - intros [error Herr]. cbn in Herr. unfold Callbacks.passing in Herr.
    destruct (Callbacks.apply f win args w) as [[e|v] w']; discriminate Herr.
  - discriminate.
  - repeat split.
  - intros _. reflexivity.
  - intros _. eexists. reflexivity.
  - reflexivity.
Qed.
